(** * Version alignment across the PyTorch ecosystem

    A shallow embedding of [scripts/adjust-torch-versions.py] and the
    verification of its specification.

    Python [str] values are modelled as lists of characters.  The character
    type is [ascii], read as the code points 0..255 (Latin-1); the character
    classes used by [re] and by [str.strip] are given for that whole range.
    Python integers are unbounded, hence [N]; the limit that an interpreter
    may put on the length of a decimal conversion is not modelled.
    Exceptions are values: a function that may raise returns a [result]. *)

From Stdlib Require Import Ascii String NArith DecimalString DecimalN.
From stdpp Require Import base option list gmap strings.

Open Scope string_scope.
Open Scope list_scope.
Open Scope N_scope.
Open Scope nat_scope.

(** ** Strings *)

Abbreviation str := (list ascii).

Coercion list_ascii_of_string : string >-> list.

Definition code (c : ascii) : N := N_of_ascii c.

Definition in_range (lo hi : N) (c : ascii) : bool :=
  ((lo <=? code c) && (code c <=? hi))%N.

(** [\d] on a [str] pattern: the decimal digits (category Nd). *)
Definition is_digit (c : ascii) : bool := in_range 48 57 c.

(** [\w] on a [str] pattern: alphanumeric code points and the underscore. *)
Definition is_word (c : ascii) : bool :=
  is_digit c || in_range 65 90 c || in_range 97 122 c || (code c =? 95)%N
  || (code c =? 170)%N || (code c =? 178)%N || (code c =? 179)%N
  || (code c =? 181)%N || (code c =? 185)%N || (code c =? 186)%N
  || in_range 188 190 c || in_range 192 214 c || in_range 216 246 c
  || in_range 248 255 c.

(** The characters removed by [str.strip], [str.lstrip] and [str.rstrip]. *)
Definition is_space (c : ascii) : bool :=
  in_range 9 13 c || in_range 28 32 c || (code c =? 133)%N
  || (code c =? 160)%N.

(** The class [[\.\d]]. *)
Definition is_numdot (c : ascii) : bool :=
  (code c =? 46)%N || is_digit c.

(** The class [[-_\w]] of the negative lookahead. *)
Definition is_name_char (c : ascii) : bool :=
  (code c =? 45)%N || (code c =? 95)%N || is_word c.

Definition newline : ascii := "010"%char.

Fixpoint take_while (p : ascii -> bool) (s : str) : str :=
  match s with
  | c :: s' => if p c then c :: take_while p s' else []
  | [] => []
  end.

Fixpoint drop_while (p : ascii -> bool) (s : str) : str :=
  match s with
  | c :: s' => if p c then drop_while p s' else s
  | [] => []
  end.

(** [s.lstrip()], [s.rstrip()], [s.strip()]. *)
Definition lstrip (s : str) : str := drop_while is_space s.
Definition rstrip (s : str) : str :=
  reverse (drop_while is_space (reverse s)).
Definition strip (s : str) : str := rstrip (lstrip s).

(** [s.split(sep)] for a one-character separator: never empty. *)
Fixpoint split (sep : ascii) (s : str) : list str :=
  match s with
  | [] => [[]]
  | c :: s' =>
      if decide (c = sep) then [] :: split sep s'
      else match split sep s' with
           | p :: ps => (c :: p) :: ps
           | [] => [[c]]
           end
  end.

(** [s.split(sep, maxsplit=1)]: one or two pieces. *)
Fixpoint split1 (sep : ascii) (s : str) : list str :=
  match s with
  | [] => [[]]
  | c :: s' =>
      if decide (c = sep) then [[]; s']
      else match split1 sep s' with
           | p :: ps => (c :: p) :: ps
           | [] => [[c]]
           end
  end.

(** [sep.join(parts)]. *)
Fixpoint join (sep : str) (parts : list str) : str :=
  match parts with
  | [] => []
  | [p] => p
  | p :: ps => p ++ sep ++ join sep ps
  end.

(** ** Exceptions and results *)

Inductive exn : Type :=
  | AttributeError              (* [.groups()] on the [None] of a failed search *)
  | ValueError_int (lit : str)  (* [int(lit)]: invalid literal *)
  | ValueError_unpack           (* wrong number of values to unpack *)
  | ValueError (msg : str)      (* raised by the script, with its message *)
  | ModuleNotFoundError.        (* [import torch] without torch installed *)

Inductive result (A : Type) : Type :=
  | OK (a : A)
  | Raise (e : exn).
Arguments OK {A} a.
Arguments Raise {A} e.

Global Instance result_ret : MRet result := fun A a => OK a.
Global Instance result_bind : MBind result := fun A B f m =>
  match m with
  | OK a => f a
  | Raise e => Raise e
  end.

(** ** Integers and their decimal form *)

(** [str(n)] for a non-negative integer. *)
Definition str_of_int (n : N) : str :=
  list_ascii_of_string (NilZero.string_of_uint (N.to_uint n)).

Fixpoint int_digits (acc : N) (s : str) : option N :=
  match s with
  | [] => Some acc
  | c :: s' =>
      if is_digit c then int_digits (10 * acc + (code c - 48))%N s' else None
  end.

(** [int(s)] on the literals that reach it here: the pieces of a [[\.\d]+]
    run cut at the dots, which hold decimal digits only.  The empty piece
    is the invalid literal. *)
Definition int (s : str) : result N :=
  match s with
  | [] => Raise (ValueError_int s)
  | _ => match int_digits 0 s with
         | Some n => OK n
         | None => Raise (ValueError_int s)
         end
  end.

(** [a, b, c = map(int, parts)]: the lazy [map] is consumed item by item,
    so an invalid literal among the first four pieces is reported before
    the wrong count. *)
Definition unpack3 (parts : list str) : result (N * N * N) :=
  match parts with
  | [] => Raise ValueError_unpack
  | p0 :: r0 =>
      a ← int p0;
      match r0 with
      | [] => Raise ValueError_unpack
      | p1 :: r1 =>
          b ← int p1;
          match r1 with
          | [] => Raise ValueError_unpack
          | p2 :: r2 =>
              c ← int p2;
              match r2 with
              | [] => OK (a, b, c)
              | p3 :: _ => _ ← int p3; Raise ValueError_unpack
              end
          end
      end
  end.

(** ** The version mapper *)

(** [re.search(r"([\.\d]+)", s)]: the first maximal run of dots and digits,
    [None] when there is none. *)
Definition re_search_numdot (s : str) : option str :=
  match take_while is_numdot (drop_while (fun c => negb (is_numdot c)) s) with
  | [] => None
  | run => Some run
  end.

(** [re.search(r"([\.\d]+)", s).groups()[0]] *)
Definition semantic_version (s : str) : result str :=
  match re_search_numdot s with
  | Some run => OK run
  | None => Raise AttributeError
  end.

Definition dot : ascii := "."%char.

Definition render (arr : list N) : str := join [dot] (str_of_int <$> arr).

Module torchaudio.

Definition _VERSION_EXCEPTIONS : gmap str str :=
  list_to_map [("1.8.2" : str, "0.9.1" : str)].

Definition fallback (torch_ver : str) : result str :=
  '(ver_major, ver_minor, ver_bugfix) ← unpack3 (split dot torch_ver);
  let ta_ver_array := [ver_major; ver_minor; ver_bugfix] in
  let ta_ver_array :=
    if (ver_major =? 1)%N then <[0%nat := 0%N]> ta_ver_array
    else ta_ver_array in
  let ta_ver_array := <[2%nat := ver_bugfix]> ta_ver_array in
  OK (render ta_ver_array).

End torchaudio.

Definition _determine_torchaudio (torch_version : str) : result str :=
  torch_ver ← semantic_version torch_version;
  match torchaudio._VERSION_EXCEPTIONS !! torch_ver with
  | Some v => OK v
  | None => torchaudio.fallback torch_ver
  end.

Module torchtext.

Definition _VERSION_EXCEPTIONS : gmap str str :=
  list_to_map [("2.0.1" : str, "0.15.2" : str);
               ("2.0.0" : str, "0.15.1" : str);
               ("1.8.2" : str, "0.9.1" : str)].

Definition fallback (torch_version torch_ver : str) : result str :=
  '(ver_major, ver_minor, ver_bugfix) ← unpack3 (split dot torch_ver);
  let tt_ver_array := [0; 0; 0]%N in
  tt_ver_array ←
    (if (ver_major =? 1)%N then
       let tt_ver_array := <[1%nat := (ver_minor + 1)%N]> tt_ver_array in
       OK (<[2%nat := ver_bugfix]> tt_ver_array)
     else if (ver_major =? 2)%N then
       if (3 <=? ver_minor)%N then
         OK (<[1%nat := 18%N]> tt_ver_array)
       else
         let tt_ver_array := <[1%nat := (ver_minor + 15)%N]> tt_ver_array in
         OK (<[2%nat := ver_bugfix]> tt_ver_array)
     else
       Raise (ValueError ("Invalid torch version: " ++ torch_version)));
  OK (render tt_ver_array).

End torchtext.

Definition _determine_torchtext (torch_version : str) : result str :=
  torch_ver ← semantic_version torch_version;
  match torchtext._VERSION_EXCEPTIONS !! torch_ver with
  | Some v => OK v
  | None => torchtext.fallback torch_version torch_ver
  end.

Module torchvision.

Definition _VERSION_EXCEPTIONS : gmap str str :=
  list_to_map [("2.0.1" : str, "0.15.2" : str);
               ("2.0.0" : str, "0.15.1" : str);
               ("1.10.2" : str, "0.11.3" : str);
               ("1.10.1" : str, "0.11.2" : str);
               ("1.10.0" : str, "0.11.1" : str);
               ("1.8.2" : str, "0.9.1" : str)].

Definition fallback (torch_version torch_ver : str) : result str :=
  '(ver_major, ver_minor, ver_bugfix) ← unpack3 (split dot torch_ver);
  let tv_ver_array := [0; 0; 0]%N in
  tv_ver_array ←
    (if (ver_major =? 1)%N then
       OK (<[1%nat := (ver_minor + 1)%N]> tv_ver_array)
     else if (ver_major =? 2)%N then
       OK (<[1%nat := (ver_minor + 15)%N]> tv_ver_array)
     else
       Raise (ValueError ("Invalid torch version: " ++ torch_version)));
  let tv_ver_array := <[2%nat := ver_bugfix]> tv_ver_array in
  OK (render tv_ver_array).

End torchvision.

Definition _determine_torchvision (torch_version : str) : result str :=
  torch_ver ← semantic_version torch_version;
  match torchvision._VERSION_EXCEPTIONS !! torch_ver with
  | Some v => OK v
  | None => torchvision.fallback torch_version torch_ver
  end.

(** [ver[:-1] if ver[-1] == "." else ver]; the run is never empty. *)
Definition drop_trailing_dot (ver : str) : str :=
  match last ver with
  | Some c => if decide (c = dot) then removelast ver else ver
  | None => ver
  end.

(** The alignment map is a [dict]; the rewriter iterates over it in
    insertion order, so it is kept as a list of items. *)
Definition find_latest (ver : str) : result (list (str * str)) :=
  ver ← semantic_version ver;
  let ver := drop_trailing_dot ver in
  tv ← _determine_torchvision ver;
  tt ← _determine_torchtext ver;
  ta ← _determine_torchaudio ver;
  OK [("torch" : str, ver);
      ("torchvision" : str, tv);
      ("torchtext" : str, tt);
      ("torchaudio" : str, ta)].

(** ** The manifest rewriter *)

(** The pattern [rf"\b{lib}(?![-_\w]).*"] tried at one position of the
    subject.  [prev_word] tells whether the character before the position
    is a word character; it is [false] at the start of the subject. *)

(** [\b]: exactly one of the two neighbours is a word character. *)
Definition word_boundary (prev_word : bool) (s : str) : bool :=
  xorb prev_word (match s with c :: _ => is_word c | [] => false end).

(** [{lib}(?![-_\w])]: the name, then no name character. *)
Fixpoint name_then_lookahead (lib s : str) : bool :=
  match lib, s with
  | [], [] => true
  | [], c :: _ => negb (is_name_char c)
  | a :: lib', c :: s' => bool_decide (a = c) && name_then_lookahead lib' s'
  | _ :: _, [] => false
  end.

Definition match_at (lib : str) (prev_word : bool) (s : str) : bool :=
  word_boundary prev_word s && name_then_lookahead lib s.

(** The scan of [re.sub]: it looks for the leftmost match, and a match
    consumes the name and then, with [.*], everything up to the next
    newline; the search resumes where the match ended. *)
Inductive scan : Type :=
  | Searching
  | Matching (name_left : nat).

(** [re.sub(rf"\b{lib}(?![-_\w]).*", repl, s)], for a name [lib] that is
    not empty and holds no character special to [re], and for a
    replacement without backslash, which [re.sub] inserts as it is. *)
Fixpoint re_sub_from (lib repl : str) (st : scan) (prev_word : bool)
    (s : str) : str :=
  match s with
  | [] => []
  | c :: s' =>
      let try_match :=
        if match_at lib prev_word s
        then repl ++ re_sub_from lib repl (Matching (length lib - 1)) (is_word c) s'
        else c :: re_sub_from lib repl Searching (is_word c) s' in
      match st with
      | Matching (S k) => re_sub_from lib repl (Matching k) (is_word c) s'
      | Matching 0 =>
          if decide (c = newline) then try_match
          else re_sub_from lib repl (Matching 0) (is_word c) s'
      | Searching => try_match
      end
  end.

Definition re_sub (lib repl s : str) : str :=
  re_sub_from lib repl Searching false s.

(** [f"{lib}=={version}" if version else ""] *)
Definition replacement (lib version : str) : str :=
  match version with
  | [] => []
  | _ => lib ++ "==" ++ version
  end.

(** The inner loop over [options.items()]. *)
Definition substitute (options : list (str * str)) (req : str) : str :=
  foldl (fun req '(lib, version) => re_sub lib (replacement lib version) req)
        req options.

Definition hash : ascii := "#"%char.

(** One turn of the loop over [requires]; [requires_] is the list built so
    far. *)
Definition adjust_step (options : list (str * str)) (requires_ : list str)
    (req : str) : list str :=
  let req_split := split1 hash (strip req) in
  let req := strip (default [] (req_split !! 0%nat)) in
  let comment :=
    if decide (length req_split < 2) then []
    else "  #" ++ default [] (req_split !! 1%nat) in
  match req with
  | [] => requires_ ++ [strip comment]
  | _ =>
      let req := substitute options req in
      requires_ ++ [req ++ rstrip comment]
  end.

Section Environment.

(** [torch.__version__] of the installed torch, [None] when [import torch]
    fails. *)
Variable torch___version__ : option str.

Definition adjust (requires : list str) (pytorch_version : option str)
    : result (list str) :=
  pytorch_version ←
    match pytorch_version with
    | Some ((_ :: _) as v) => OK v
    | _ =>
        match torch___version__ with
        | Some v => OK v
        | None => Raise ModuleNotFoundError
        end
    end;
  match pytorch_version with
  | [] => Raise (ValueError ("invalid torch: " ++ pytorch_version))
  | _ =>
      options ← find_latest pytorch_version;
      OK (foldl (adjust_step options) [] requires)
  end.

End Environment.

(** ** The file of requirements *)

Definition cr : ascii := "013"%char.
Definition tab : ascii := "009"%char.

(** What a file opened for reading in text mode gives for its text: with
    the default [newline=None], a carriage return followed by a newline,
    and a carriage return alone, are read as one newline. *)
Fixpoint universal_newlines (s : str) : str :=
  match s with
  | [] => []
  | c :: s' =>
      if decide (c = cr) then
        match s' with
        | d :: s'' =>
            if decide (d = newline) then newline :: universal_newlines s''
            else newline :: universal_newlines s'
        | [] => [newline]
        end
      else c :: universal_newlines s'
  end.

(** [fopen.readlines()]: the lines with their newline; the last line may
    lack it, and an empty text has no line. *)
Fixpoint readlines (s : str) : list str :=
  match s with
  | [] => []
  | c :: s' =>
      if decide (c = newline) then [c] :: readlines s'
      else match readlines s' with
           | l :: ls => (c :: l) :: ls
           | [] => [[c]]
           end
  end.

(** What a file opened for writing in text mode stores for the text
    written: with the default [newline=None], every newline becomes
    [os.linesep]. *)
Definition write_text (linesep s : str) : str :=
  s ≫= (fun c => if decide (c = newline) then linesep else [c]).

(** What [main] may raise: the error of [open] for a path that does not
    exist, and what [adjust] raises. *)
Inductive main_exn : Type :=
  | FileNotFoundError
  | Raised (e : exn).

Section Platform.

(** [os.linesep], and [torch.__version__] as for [adjust]. *)
Variable os_linesep : str.
Variable torch___version__ : option str.

(** The default offset is a tab, a bar and a tab. *)
Definition _offset_print (reqs : list str) (offset : str) : str :=
  let reqs := (fun r => offset ++ r) <$> reqs in
  join os_linesep reqs.

(** The text files are held by path as their decoded text.  [main] reads
    the file, and writes it anew when [adjust] has returned; the record
    that it logs in between is no part of the files.  The result is the
    files afterwards, and the exception if one is raised. *)
Definition main (requirements_path : str) (torch_version : option str)
    (files : gmap str str) : gmap str str * option main_exn :=
  match files !! requirements_path with
  | None => (files, Some FileNotFoundError)
  | Some text =>
      let requirements := readlines (universal_newlines text) in
      match adjust torch___version__ requirements torch_version with
      | Raise e => (files, Some (Raised e))
      | OK requirements =>
          let lines := (fun r => r ++ os_linesep) <$> requirements in
          (<[requirements_path := write_text os_linesep (concat lines)]> files,
           None)
      end
  end.

End Platform.

(** ** Vocabulary of the specification *)

(** [decimal a n]: [a] is a non-empty run of digits whose value is [n]. *)
Definition decimal (a : str) (n : N) : Prop :=
  a <> [] /\ int_digits 0 a = Some n.

(** [is_version v major minor patch]: the text [v] is three decimal numbers
    separated by dots. *)
Definition is_version (v : str) (major minor patch : N) : Prop :=
  exists a b c : str,
    v = a ++ dot :: b ++ dot :: c /\
    decimal a major /\ decimal b minor /\ decimal c patch.

(** The exceptions of a failed parse: no run of digits and dots, a wrong
    number of components, a component that is not an integer. *)
Definition parse_error (e : exn) : Prop :=
  e = AttributeError \/ e = ValueError_unpack \/ exists lit, e = ValueError_int lit.

(** The name [lib] occurs in [s] at position [p]. *)
Definition occurs_at (lib s : str) (p : nat) : Prop :=
  lib `prefix_of` drop p s.

(** The occurrence of [lib] at position [p] of [s] is followed at once by
    an identifier character, a hyphen or an underscore. *)
Definition extended_at (lib s : str) (p : nat) : Prop :=
  exists c, s !! (p + length lib)%nat = Some c /\ is_name_char c = true.

(** ** The rewriter, line by line and rule by rule *)

(** The requirement part of a line: what stands before the first hash,
    stripped. *)
Definition requirement_part (line : str) : str :=
  strip (default [] (split1 hash (strip line) !! 0%nat)).

(** The line that one turn of the loop of [adjust] appends for [req]. *)
Definition adjusted_line (options : list (str * str)) (req : str) : str :=
  let req_split := split1 hash (strip req) in
  let req := strip (default [] (req_split !! 0%nat)) in
  let comment :=
    if decide (length req_split < 2) then []
    else "  #" ++ default [] (req_split !! 1%nat) in
  match req with
  | [] => strip comment
  | _ => substitute options req ++ rstrip comment
  end.

(** The substitution within one line: the text from the first match on
    is replaced. *)
Fixpoint line_sub (lib repl : str) (pw : bool) (s : str) : str :=
  match s with
  | [] => []
  | c :: s' =>
      if match_at lib pw s then repl
      else c :: line_sub lib repl (is_word c) s'
  end.

(** The text before the first match, and the text from the match on. *)
Fixpoint find_match (lib : str) (pw : bool) (s : str) : option (str * str) :=
  match s with
  | [] => None
  | c :: s' =>
      if match_at lib pw s then Some ([], s)
      else prod_map (cons c) id <$> find_match lib (is_word c) s'
  end.

(** Whether the last character of [s] is a word character; [pw] stands for
    the character before [s]. *)
Fixpoint last_word (pw : bool) (s : str) : bool :=
  match s with
  | [] => pw
  | c :: s' => last_word (is_word c) s'
  end.

(** The start of a line under the scan of [re_sub_from]. *)
Definition line_start (lib repl : str) (st : scan) (pw : bool) (s : str) : str :=
  match st with
  | Searching => line_sub lib repl pw s
  | Matching _ => []
  end.

(** A companion name as the pattern takes it: word characters only, and
    none that a version holds. *)
Definition plain_name (lib : str) : Prop :=
  lib <> [] /\
  Forall (fun c => is_word c = true) lib /\
  Forall (fun c => is_numdot c = false) lib.

(** The text of a resolved version: digits and dots, not empty. *)
Definition version_text (v : str) : Prop :=
  v <> [] /\ Forall (fun c => is_numdot c = true) v.

(** The alignment maps that the resolver returns. *)
Definition aligned (options : list (str * str)) : Prop :=
  exists v0 v1 v2 v3 : str,
    options = [("torch" : str, v0); ("torchvision" : str, v1);
               ("torchtext" : str, v2); ("torchaudio" : str, v3)] /\
    version_text v0 /\ version_text v1 /\ version_text v2 /\ version_text v3.

(** The rule of one item of the alignment map. *)
Definition rule (item : str * str) (req : str) : str :=
  re_sub item.1 (replacement item.1 item.2) req.

(** "The first companion name that matches wins": a rule that substitutes
    gives the final requirement part, so that at most one substitution is
    applied and no later rule modifies it. *)
Definition first_match_wins (options : list (str * str)) (req : str) : Prop :=
  forall before item after,
    options = before ++ item :: after ->
    rule item (substitute before req) <> substitute before req ->
    substitute options req = rule item (substitute before req).

(** A text without white space at its start, at its end, at both. *)
Definition starts_tight (s : str) : Prop :=
  forall c, head s = Some c -> is_space c = false.

Definition ends_tight (s : str) : Prop :=
  forall c, last s = Some c -> is_space c = false.

Definition tight (s : str) : Prop := starts_tight s /\ ends_tight s.

(** A requirement part as the loop of [adjust] keeps it: not empty, without
    white space around it, without hash. *)
Definition good_text (s : str) : Prop :=
  s <> [] /\ tight s /\ hash ∉ s.

(** * Properties *)

(** ** Characters *)

Lemma is_digit_numdot c : is_digit c = true -> is_numdot c = true.
Proof. unfold is_numdot. intros ->. apply orb_true_r. Qed.

Lemma is_digit_not_dot c : is_digit c = true -> c <> dot.
Proof. intros H ->. vm_compute in H. discriminate. Qed.

Lemma is_numdot_cases c : is_numdot c = true -> c = dot \/ is_digit c = true.
Proof.
  unfold is_numdot. intros [H | H]%orb_true_iff; [left | by right].
  apply N.eqb_eq in H. unfold code in H.
  rewrite <- (ascii_N_embedding c), H. reflexivity.
Qed.

(** ** Splitting and joining *)

Lemma split_nonempty sep s : split sep s <> [].
Proof.
  destruct s as [| c s]; simpl; [done |].
  case_decide; [done |]. by destruct (split sep s).
Qed.

Lemma split_no_sep sep s : sep ∉ s -> split sep s = [s].
Proof.
  induction s as [| c s IH]; simpl; [done |].
  intros [Hc Hs]%not_elem_of_cons. rewrite decide_False by done.
  by rewrite IH.
Qed.

Lemma split_app_sep sep a rest :
  sep ∉ a -> split sep (a ++ sep :: rest) = a :: split sep rest.
Proof.
  induction a as [| c a IH]; simpl.
  - intros _. by rewrite decide_True.
  - intros [Hc Ha]%not_elem_of_cons. rewrite decide_False by done.
    by rewrite IH.
Qed.

Lemma join_split sep s : join [sep] (split sep s) = s.
Proof.
  induction s as [| c s IH]; simpl; [done |].
  case_decide as Hc.
  - subst c. pose proof (split_nonempty sep s).
    destruct (split sep s) as [| p ps]; [done |]. simpl in *. by rewrite IH.
  - destruct (split sep s) as [| p ps] eqn:E; [by destruct (split_nonempty sep s) |].
    destruct ps; simpl in *; by rewrite <- IH.
Qed.

Lemma split_Forall (P : ascii -> Prop) sep s :
  Forall P s -> Forall (Forall P) (split sep s).
Proof.
  induction 1 as [| c s Hc Hs IH]; simpl; [by repeat constructor |].
  case_decide; [by constructor |].
  destruct IH as [| p ps Hp Hps]; repeat constructor; done.
Qed.

Lemma split_no_sep_pieces sep s : Forall (fun p => sep ∉ p) (split sep s).
Proof.
  induction s as [| c s IH]; simpl.
  - repeat constructor. apply not_elem_of_nil.
  - case_decide.
    + constructor; [apply not_elem_of_nil | done].
    + destruct IH as [| p ps Hp Hps].
      * repeat constructor. by intros ->%list_elem_of_singleton.
      * constructor; [| done]. by apply not_elem_of_cons.
Qed.

(** ** Decimal numbers *)

Lemma int_digits_Forall acc a n :
  int_digits acc a = Some n -> Forall (fun c => is_digit c = true) a.
Proof.
  revert acc. induction a as [| c a IH]; intros acc; simpl; [by constructor |].
  destruct (is_digit c) eqn:E; [| done]. intros H. constructor; eauto.
Qed.

Lemma int_digits_total acc a :
  Forall (fun c => is_digit c = true) a -> is_Some (int_digits acc a).
Proof.
  intros H. revert acc. induction H as [| c a Hc _ IH]; intros acc; simpl.
  - by eexists.
  - rewrite Hc. apply IH.
Qed.

Lemma int_decimal a n : int a = OK n <-> decimal a n.
Proof.
  unfold int, decimal. destruct a as [| c a].
  - split; [done | by intros []].
  - destruct (int_digits 0 (c :: a)) as [m |]; split.
    + by intros [= ->].
    + by intros [_ [= ->]].
    + done.
    + by intros [_ ?].
Qed.

Lemma int_Raise a e : int a = Raise e -> e = ValueError_int a.
Proof.
  unfold int. destruct a as [| c a]; [by intros [= <-] |].
  destruct (int_digits 0 (c :: a)); [done | by intros [= <-]].
Qed.

Lemma int_digits_piece a :
  Forall (fun c => is_numdot c = true) a -> dot ∉ a -> a <> [] ->
  exists n, int a = OK n.
Proof.
  intros Hnd Hdot Hne.
  assert (Hd : Forall (fun c => is_digit c = true) a).
  { rewrite Forall_forall in Hnd |- *. intros c Hc.
    destruct (is_numdot_cases c (Hnd c Hc)); [| done]. by subst c. }
  destruct (int_digits_total 0 a Hd) as [n Hn]. exists n.
  apply int_decimal. by split.
Qed.

Lemma decimal_no_dot a n : decimal a n -> dot ∉ a.
Proof.
  intros [_ H%int_digits_Forall] Hin. rewrite Forall_forall in H.
  by apply (is_digit_not_dot dot (H _ Hin)).
Qed.

Lemma decimal_numdot a n :
  decimal a n -> Forall (fun c => is_numdot c = true) a.
Proof.
  intros [_ H%int_digits_Forall]. eapply Forall_impl; [done |].
  apply is_digit_numdot.
Qed.

(** [int] reads back what [str] prints. *)

Lemma int_digits_digit acc c s :
  is_digit c = true ->
  int_digits acc (c :: s) = int_digits (10 * acc + (code c - 48))%N s.
Proof. simpl. by intros ->. Qed.

Lemma int_digits_of_uint_acc d p :
  int_digits (N.pos p) (list_ascii_of_string (NilEmpty.string_of_uint d)) =
  Some (N.pos (Pos.of_uint_acc d p)).
Proof.
  revert p. induction d as [| d IH | d IH | d IH | d IH | d IH | d IH | d IH
                            | d IH | d IH | d IH]; intros p; [done | ..].
  all: simpl NilEmpty.string_of_uint; simpl list_ascii_of_string.
  all: rewrite int_digits_digit by done; simpl Pos.of_uint_acc.
  all: rewrite <- IH; f_equal.
  all: match goal with
       | |- context [code ?c] =>
           let k := eval vm_compute in (code c - 48)%N in
           change (code c - 48)%N with k
       end; lia.
Qed.

Lemma int_digits_of_uint d :
  int_digits 0 (list_ascii_of_string (NilEmpty.string_of_uint d)) =
  Some (Pos.of_uint d).
Proof.
  induction d as [| d IH | d IH | d IH | d IH | d IH | d IH | d IH
                  | d IH | d IH | d IH]; [done | ..].
  all: simpl NilEmpty.string_of_uint; simpl list_ascii_of_string.
  all: rewrite int_digits_digit by done; simpl Pos.of_uint.
  - apply IH.
  - apply (int_digits_of_uint_acc d 1).
  - apply (int_digits_of_uint_acc d 2).
  - apply (int_digits_of_uint_acc d 3).
  - apply (int_digits_of_uint_acc d 4).
  - apply (int_digits_of_uint_acc d 5).
  - apply (int_digits_of_uint_acc d 6).
  - apply (int_digits_of_uint_acc d 7).
  - apply (int_digits_of_uint_acc d 8).
  - apply (int_digits_of_uint_acc d 9).
Qed.

Lemma decimal_str_of_int n : decimal (str_of_int n) n.
Proof.
  unfold decimal, str_of_int, NilZero.string_of_uint.
  pose proof (DecimalN.Unsigned.of_to n) as E. unfold N.of_uint in E.
  destruct (N.to_uint n) eqn:Ed; [simpl in E; by subst n | ..].
  all: split; [done |]; by rewrite int_digits_of_uint, E.
Qed.

Lemma int_str_of_int n : int (str_of_int n) = OK n.
Proof. apply int_decimal, decimal_str_of_int. Qed.

(** ** Versions *)

(** A rendered triple is the version of that triple. *)
Lemma render_is_version a b c : is_version (render [a; b; c]) a b c.
Proof.
  exists (str_of_int a), (str_of_int b), (str_of_int c).
  split; [done |]. auto using decimal_str_of_int.
Qed.

Lemma is_version_numdot v ma mi pa :
  is_version v ma mi pa -> Forall (fun c => is_numdot c = true) v.
Proof.
  intros (a & b & c & -> & Ha & Hb & Hc).
  rewrite Forall_app, !Forall_cons, Forall_app, !Forall_cons.
  eauto 10 using decimal_numdot.
Qed.

Lemma is_version_nonempty v ma mi pa : is_version v ma mi pa -> v <> [].
Proof. intros (a & b & c & -> & _). by destruct a. Qed.

Lemma unpack3_version v ma mi pa :
  is_version v ma mi pa -> unpack3 (split dot v) = OK (ma, mi, pa).
Proof.
  intros (a & b & c & -> & Ha & Hb & Hc).
  rewrite !split_app_sep, split_no_sep by eauto using decimal_no_dot.
  apply int_decimal in Ha, Hb, Hc. simpl. rewrite Ha. simpl. rewrite Hb.
  simpl. by rewrite Hc.
Qed.

Lemma version_unpack3 v ma mi pa :
  unpack3 (split dot v) = OK (ma, mi, pa) -> is_version v ma mi pa.
Proof.
  intros H. rewrite <- (join_split dot v).
  destruct (split dot v) as [| a [| b [| c [| d r]]]]; simpl in H; try done.
  - by destruct (int a).
  - destruct (int a); [| done]. by destruct (int b).
  - destruct (int a) as [x |] eqn:Ea; [| done].
    destruct (int b) as [y |] eqn:Eb; [| done].
    destruct (int c) as [z |] eqn:Ec; [| done].
    simpl in H. injection H as -> -> ->.
    exists a, b, c. rewrite <- !int_decimal. done.
  - destruct (int a); [| done]. destruct (int b); [| done].
    destruct (int c); [| done]. by destruct (int d).
Qed.

Lemma unpack3_Raise parts e : unpack3 parts = Raise e -> parse_error e.
Proof.
  unfold parse_error.
  destruct parts as [| a [| b [| c [| d r]]]]; simpl; intros H.
  all: repeat match type of H with
       | context [int ?x] =>
           let E := fresh "E" in
           destruct (int x) eqn:E;
           [simpl in H | apply int_Raise in E; simpl in H]
       end; naive_solver.
Qed.

(** ** The search for the run of digits and dots *)

Lemma take_while_all (f : ascii -> bool) s :
  Forall (fun c => f c = true) s -> take_while f s = s.
Proof. induction 1 as [| c s Hc _ IH]; simpl; [done |]. by rewrite Hc, IH. Qed.

Lemma take_while_Forall (f : ascii -> bool) s :
  Forall (fun c => f c = true) (take_while f s).
Proof.
  induction s as [| c s IH]; simpl; [by constructor |].
  destruct (f c) eqn:E; by constructor.
Qed.

Lemma drop_while_none (f : ascii -> bool) s :
  Forall (fun c => f c = false) s -> drop_while f s = s.
Proof. destruct 1 as [| c s Hc _]; simpl; [done |]. by rewrite Hc. Qed.

Lemma drop_while_all (f : ascii -> bool) s :
  Forall (fun c => f c = true) s -> drop_while f s = [].
Proof. induction 1 as [| c s Hc _ IH]; simpl; [done |]. by rewrite Hc. Qed.

Lemma re_search_numdot_Some s run :
  re_search_numdot s = Some run ->
  run <> [] /\ Forall (fun c => is_numdot c = true) run.
Proof.
  unfold re_search_numdot.
  pose proof (take_while_Forall is_numdot
    (drop_while (fun c => negb (is_numdot c)) s)) as H.
  destruct (take_while _ _); [done |]. by intros [= <-].
Qed.

(** The literals that reach [int] are runs of digits, accepted unless
    empty. *)
Lemma re_search_numdot_pieces s run :
  re_search_numdot s = Some run ->
  Forall (fun piece => piece = [] \/ exists n, int piece = OK n)
         (split dot run).
Proof.
  intros [_ Hrun]%re_search_numdot_Some.
  pose proof (split_Forall _ dot run Hrun) as Hnd.
  pose proof (split_no_sep_pieces dot run) as Hdot.
  rewrite Forall_forall in Hnd, Hdot |- *. intros piece Hin.
  destruct (decide (piece = [])) as [| Hne]; [by left | right].
  apply int_digits_piece; auto.
Qed.

Lemma re_search_numdot_self v :
  v <> [] -> Forall (fun c => is_numdot c = true) v ->
  re_search_numdot v = Some v.
Proof.
  intros Hne Hv. unfold re_search_numdot.
  rewrite drop_while_none, take_while_all; [by destruct v | done |].
  eapply Forall_impl; [done |]. by intros c ->.
Qed.

Lemma re_search_numdot_None s :
  Forall (fun c => is_numdot c = false) s -> re_search_numdot s = None.
Proof.
  intros H. unfold re_search_numdot. rewrite drop_while_all; [done |].
  eapply Forall_impl; [done |]. by intros c ->.
Qed.

Lemma drop_trailing_dot_numdot run :
  Forall (fun c => is_numdot c = true) run ->
  Forall (fun c => is_numdot c = true) (drop_trailing_dot run).
Proof.
  intros H. unfold drop_trailing_dot.
  destruct (last run) as [c |]; [| done]. case_decide; [| done].
  destruct run as [| c0 run _] using rev_ind; [done |].
  rewrite removelast_last. by apply Forall_app in H as [H _].
Qed.

Lemma drop_trailing_dot_version v ma mi pa :
  is_version v ma mi pa -> drop_trailing_dot v = v.
Proof.
  intros (a & b & c & -> & _ & _ & [Hne Hc]).
  unfold drop_trailing_dot.
  destruct c as [| c0 c _] using rev_ind; [done |].
  rewrite !app_comm_cons, !app_assoc, last_snoc.
  rewrite decide_False; [done |].
  apply int_digits_Forall, Forall_app in Hc as [_ Hc].
  apply is_digit_not_dot. by inversion Hc.
Qed.

(** ** The exception tables *)

Ltac table_keys H :=
  apply elem_of_list_to_map_2 in H;
  repeat (apply elem_of_cons in H as [H | H]; [injection H as -> -> |]);
  [.. | by apply elem_of_nil in H].

(** Every pinned primary version is a version of era 1, or a 2.0 release. *)
Lemma torchvision_pin k v :
  torchvision._VERSION_EXCEPTIONS !! k = Some v ->
  exists ma mi pa,
    unpack3 (split dot k) = OK (ma, mi, pa) /\
    (ma = 1 \/ ma = 2 /\ mi = 0)%N.
Proof.
  intros H. table_keys H; vm_compute; eauto 10.
Qed.

Lemma torchtext_pin k v :
  torchtext._VERSION_EXCEPTIONS !! k = Some v ->
  torchvision._VERSION_EXCEPTIONS !! k = Some v.
Proof. intros H. table_keys H; reflexivity. Qed.

Lemma torchaudio_pin k v :
  torchaudio._VERSION_EXCEPTIONS !! k = Some v ->
  torchvision._VERSION_EXCEPTIONS !! k = Some v.
Proof. intros H. table_keys H; reflexivity. Qed.

Lemma torchaudio_pin_major k v :
  torchaudio._VERSION_EXCEPTIONS !! k = Some v ->
  exists mi pa, unpack3 (split dot k) = OK (1%N, mi, pa).
Proof. intros H. table_keys H; vm_compute; eauto. Qed.

Lemma not_pinned v ma mi pa :
  is_version v ma mi pa ->
  (ma <> 1 /\ (ma = 2 -> mi <> 0))%N ->
  torchvision._VERSION_EXCEPTIONS !! v = None /\
  torchtext._VERSION_EXCEPTIONS !! v = None /\
  torchaudio._VERSION_EXCEPTIONS !! v = None.
Proof.
  intros Hv%unpack3_version Hm.
  assert (H : torchvision._VERSION_EXCEPTIONS !! v = None).
  { destruct (_ !! v) as [w |] eqn:E; [| done].
    apply torchvision_pin in E as (? & ? & ? & E & ?).
    rewrite Hv in E. injection E as <- <- <-. lia. }
  split; [done |]. split.
  - destruct (torchtext._VERSION_EXCEPTIONS !! v) eqn:E; [| done].
    apply torchtext_pin in E. congruence.
  - destruct (torchaudio._VERSION_EXCEPTIONS !! v) eqn:E; [| done].
    apply torchaudio_pin in E. congruence.
Qed.

(** ** The three rules on a version *)

Lemma fallbacks_era2 s v mi pa :
  is_version v 2 mi pa ->
  torchtext.fallback s v =
    OK (if (3 <=? mi)%N then render [0; 18; 0]%N
        else render [0; mi + 15; pa]%N) /\
  torchvision.fallback s v = OK (render [0; mi + 15; pa]%N) /\
  torchaudio.fallback v = OK (render [2; mi; pa]%N).
Proof.
  intros Hv%unpack3_version.
  unfold torchtext.fallback, torchvision.fallback, torchaudio.fallback.
  rewrite Hv. simpl. by destruct (3 <=? mi)%N.
Qed.

Lemma fallbacks_unsupported s v ma mi pa :
  is_version v ma mi pa -> ma <> 1%N -> ma <> 2%N ->
  torchtext.fallback s v = Raise (ValueError ("Invalid torch version: " ++ s)) /\
  torchvision.fallback s v = Raise (ValueError ("Invalid torch version: " ++ s)) /\
  torchaudio.fallback v = OK (render [ma; mi; pa]).
Proof.
  intros Hv%unpack3_version H1%N.eqb_neq H2%N.eqb_neq.
  unfold torchtext.fallback, torchvision.fallback, torchaudio.fallback.
  rewrite Hv. simpl. by rewrite H1, H2.
Qed.

Lemma torchaudio_fallback_total v ma mi pa :
  is_version v ma mi pa ->
  torchaudio.fallback v =
    OK (render [if (ma =? 1)%N then 0%N else ma; mi; pa]).
Proof.
  intros Hv%unpack3_version. unfold torchaudio.fallback.
  rewrite Hv. simpl. by destruct (ma =? 1)%N.
Qed.

Lemma torchaudio_no_ValueError s msg :
  _determine_torchaudio s <> Raise (ValueError msg).
Proof.
  unfold _determine_torchaudio, semantic_version.
  destruct (re_search_numdot s) as [run |]; [| done]. simpl.
  destruct (torchaudio._VERSION_EXCEPTIONS !! run); [done |].
  unfold torchaudio.fallback.
  destruct (unpack3 (split dot run)) as [[[ma mi] pa] | e] eqn:Eu; [done |].
  simpl. apply unpack3_Raise in Eu as [-> | [-> | [lit ->]]]; done.
Qed.

Lemma determine_unfold s run :
  re_search_numdot s = Some run ->
  _determine_torchvision s =
    match torchvision._VERSION_EXCEPTIONS !! run with
    | Some v => OK v
    | None => torchvision.fallback s run
    end /\
  _determine_torchtext s =
    match torchtext._VERSION_EXCEPTIONS !! run with
    | Some v => OK v
    | None => torchtext.fallback s run
    end /\
  _determine_torchaudio s =
    match torchaudio._VERSION_EXCEPTIONS !! run with
    | Some v => OK v
    | None => torchaudio.fallback run
    end.
Proof.
  intros H.
  unfold _determine_torchvision, _determine_torchtext, _determine_torchaudio,
    semantic_version.
  by rewrite H.
Qed.

Lemma find_latest_unfold s run :
  re_search_numdot s = Some run ->
  find_latest s =
    (let ver := drop_trailing_dot run in
     tv ← _determine_torchvision ver;
     tt ← _determine_torchtext ver;
     ta ← _determine_torchaudio ver;
     OK [("torch" : str, ver); ("torchvision" : str, tv);
         ("torchtext" : str, tt); ("torchaudio" : str, ta)]).
Proof. intros H. unfold find_latest, semantic_version. by rewrite H. Qed.

Lemma find_latest_version v ma mi pa :
  is_version v ma mi pa ->
  find_latest v =
    (tv ← _determine_torchvision v;
     tt ← _determine_torchtext v;
     ta ← _determine_torchaudio v;
     OK [("torch" : str, v); ("torchvision" : str, tv);
         ("torchtext" : str, tt); ("torchaudio" : str, ta)]).
Proof.
  intros Hv. rewrite (find_latest_unfold v v).
  - simpl. by rewrite (drop_trailing_dot_version v ma mi pa).
  - eauto using re_search_numdot_self, is_version_nonempty, is_version_numdot.
Qed.

(** * The version mapper: claims *)

(** C1.  For the primary version "2.4.1" the resolver gives torchaudio
    "2.4.1", torchtext "0.18.0" and torchvision "0.19.1".  For every valid
    primary version of major 2 and minor at least 3 (none of them is in an
    exception table), the torchtext rule gives the plateau "0.18.0" whatever
    the minor and the patch, the torchvision rule gives major 0, the minor
    plus 15 and the same patch, and the torchaudio rule gives the version
    unchanged. *)
Theorem C1_resolve_era2 :
  find_latest "2.4.1" =
    OK [("torch" : str, "2.4.1" : str); ("torchvision" : str, "0.19.1" : str);
        ("torchtext" : str, "0.18.0" : str);
        ("torchaudio" : str, "2.4.1" : str)] /\
  forall (s run : str) (mi pa : N),
    re_search_numdot s = Some run -> is_version run 2 mi pa -> (3 <= mi)%N ->
    torchtext._VERSION_EXCEPTIONS !! run = None /\
    torchvision._VERSION_EXCEPTIONS !! run = None /\
    torchaudio._VERSION_EXCEPTIONS !! run = None /\
    torchtext.fallback s run = OK ("0.18.0" : str) /\
    torchvision.fallback s run = OK (render [0; mi + 15; pa]%N) /\
    torchaudio.fallback run = OK (render [2; mi; pa]%N) /\
    _determine_torchtext s = OK ("0.18.0" : str) /\
    _determine_torchvision s = OK (render [0; mi + 15; pa]%N) /\
    _determine_torchaudio s = OK (render [2; mi; pa]%N) /\
    is_version (render [2; mi; pa]%N) 2 mi pa /\
    (s = render [2; mi; pa]%N -> _determine_torchaudio s = OK s).
Proof.
  split; [by vm_compute |].
  intros s run mi pa Hrun Hv Hmi.
  pose proof (render_is_version 2 mi pa) as Hr.
  destruct (not_pinned run 2 mi pa Hv) as (Ev & Et & Ea); [lia |].
  destruct (fallbacks_era2 s run mi pa Hv) as (Ft & Fv & Fa).
  destruct (determine_unfold s run Hrun) as (Dv & Dt & Da).
  apply N.leb_le in Hmi. rewrite Hmi in Ft.
  rewrite Dv, Dt, Da, Ev, Et, Ea.
  repeat split; try done. by intros ->.
Qed.

Lemma C1_resolve_era2_witness :
  _determine_torchtext "2.7.3rc1" = OK ("0.18.0" : str) /\
  _determine_torchvision "2.7.3rc1" = OK ("0.22.3" : str) /\
  _determine_torchaudio "2.7.3rc1" = OK ("2.7.3" : str).
Proof.
  destruct C1_resolve_era2 as [_ H].
  destruct (H ("2.7.3rc1" : str) ("2.7.3" : str) 7%N 3%N)
    as (_ & _ & _ & _ & _ & _ & Ht & Hv & Ha & _ & _).
  - reflexivity.
  - exists ("2" : str), ("7" : str), ("3" : str). by vm_compute.
  - lia.
  - by repeat split.
Defined.

(** C2.  A primary version found in the exception table of a companion
    gets the entry of the table, not the fallback: "1.8.2" gives "0.9.1"
    for torchaudio, torchtext and torchvision, and "2.0.1" gives "0.15.2"
    for torchtext and torchvision, where their fallback arithmetic gives
    "0.15.1". *)
Theorem C2_exception_tables_first :
  (forall (s run v : str),
     re_search_numdot s = Some run ->
     (torchaudio._VERSION_EXCEPTIONS !! run = Some v ->
      _determine_torchaudio s = OK v) /\
     (torchtext._VERSION_EXCEPTIONS !! run = Some v ->
      _determine_torchtext s = OK v) /\
     (torchvision._VERSION_EXCEPTIONS !! run = Some v ->
      _determine_torchvision s = OK v)) /\
  (forall k v : str,
     torchvision._VERSION_EXCEPTIONS !! k = Some v ->
     exists tt ta,
       find_latest k =
         OK [("torch" : str, k); ("torchvision" : str, v);
             ("torchtext" : str, tt); ("torchaudio" : str, ta)]) /\
  (forall k v : str,
     torchtext._VERSION_EXCEPTIONS !! k = Some v ->
     exists tv ta,
       find_latest k =
         OK [("torch" : str, k); ("torchvision" : str, tv);
             ("torchtext" : str, v); ("torchaudio" : str, ta)]) /\
  (forall k v : str,
     torchaudio._VERSION_EXCEPTIONS !! k = Some v ->
     exists tv tt,
       find_latest k =
         OK [("torch" : str, k); ("torchvision" : str, tv);
             ("torchtext" : str, tt); ("torchaudio" : str, v)]) /\
  find_latest "1.8.2" =
    OK [("torch" : str, "1.8.2" : str); ("torchvision" : str, "0.9.1" : str);
        ("torchtext" : str, "0.9.1" : str);
        ("torchaudio" : str, "0.9.1" : str)] /\
  find_latest "2.0.1" =
    OK [("torch" : str, "2.0.1" : str); ("torchvision" : str, "0.15.2" : str);
        ("torchtext" : str, "0.15.2" : str);
        ("torchaudio" : str, "2.0.1" : str)] /\
  torchtext.fallback "2.0.1" "2.0.1" = OK ("0.15.1" : str) /\
  torchvision.fallback "2.0.1" "2.0.1" = OK ("0.15.1" : str).
Proof.
  split; [| split; [| split; [| split]]].
  - intros s run v Hrun.
    destruct (determine_unfold s run Hrun) as (-> & -> & ->).
    by repeat split; intros ->.
  - intros k v H. table_keys H; vm_compute; eauto.
  - intros k v H. table_keys H; vm_compute; eauto.
  - intros k v H. table_keys H; vm_compute; eauto.
  - by vm_compute.
Qed.

Lemma C2_exception_tables_first_witness :
  _determine_torchvision "1.10.2+cu113" = OK ("0.11.3" : str).
Proof.
  destruct C2_exception_tables_first as [H _].
  destruct (H ("1.10.2+cu113" : str) ("1.10.2" : str) ("0.11.3" : str))
    as (_ & _ & Hv); [reflexivity |].
  apply Hv. reflexivity.
Defined.

(** C6.  For every valid primary version whose major is neither 1 nor 2
    (none of them is in an exception table), such as "3.0.0", the torchtext
    and the torchvision rules raise the error for an invalid version, and
    its message holds the version as it was given. *)
Theorem C6_unsupported_major :
  (forall (s run : str) (ma mi pa : N),
     re_search_numdot s = Some run -> is_version run ma mi pa ->
     ma <> 1%N -> ma <> 2%N ->
     torchtext._VERSION_EXCEPTIONS !! run = None /\
     torchvision._VERSION_EXCEPTIONS !! run = None /\
     _determine_torchtext s =
       Raise (ValueError ("Invalid torch version: " ++ s)) /\
     _determine_torchvision s =
       Raise (ValueError ("Invalid torch version: " ++ s))) /\
  (forall (v : str) (ma mi pa : N),
     is_version v ma mi pa -> ma <> 1%N -> ma <> 2%N ->
     find_latest v = Raise (ValueError ("Invalid torch version: " ++ v))) /\
  _determine_torchtext "3.0.0" =
    Raise (ValueError ("Invalid torch version: 3.0.0" : str)) /\
  _determine_torchvision "3.0.0" =
    Raise (ValueError ("Invalid torch version: 3.0.0" : str)) /\
  find_latest "3.0.0" =
    Raise (ValueError ("Invalid torch version: 3.0.0" : str)).
Proof.
  assert (A : forall (s run : str) (ma mi pa : N),
     re_search_numdot s = Some run -> is_version run ma mi pa ->
     ma <> 1%N -> ma <> 2%N ->
     torchtext._VERSION_EXCEPTIONS !! run = None /\
     torchvision._VERSION_EXCEPTIONS !! run = None /\
     _determine_torchtext s =
       Raise (ValueError ("Invalid torch version: " ++ s)) /\
     _determine_torchvision s =
       Raise (ValueError ("Invalid torch version: " ++ s))).
  { intros s run ma mi pa Hrun Hv H1 H2.
    destruct (not_pinned run ma mi pa Hv) as (Ev & Et & _); [done |].
    destruct (fallbacks_unsupported s run ma mi pa Hv H1 H2) as (Ft & Fv & _).
    destruct (determine_unfold s run Hrun) as (Dv & Dt & _).
    by rewrite Dv, Dt, Ev, Et. }
  split; [done |]. split; [| by vm_compute].
  intros v ma mi pa Hv H1 H2.
  rewrite (find_latest_version v ma mi pa Hv).
  destruct (A v v ma mi pa) as (_ & _ & _ & ->); try done.
  eauto using re_search_numdot_self, is_version_nonempty, is_version_numdot.
Qed.

Lemma C6_unsupported_major_witness :
  _determine_torchtext "v4.12.0+cpu" =
    Raise (ValueError ("Invalid torch version: v4.12.0+cpu" : str)) /\
  _determine_torchvision "v4.12.0+cpu" =
    Raise (ValueError ("Invalid torch version: v4.12.0+cpu" : str)).
Proof.
  destruct C6_unsupported_major as [H _].
  destruct (H ("v4.12.0+cpu" : str) ("4.12.0" : str) 4%N 12%N 0%N)
    as (_ & _ & Ht & Hv).
  - reflexivity.
  - exists ("4" : str), ("12" : str), ("0" : str). by vm_compute.
  - done.
  - done.
  - by split.
Defined.

(** C7 as the specification has it: the torchvision table holds exactly
    five pins, all of them for 2.0.x and 1.10.x releases.  The table has a
    sixth pin, for 1.8.2. *)
Lemma C7_five_pins_counterexample :
  ~ (size torchvision._VERSION_EXCEPTIONS = 5 /\
     forall k : str,
       is_Some (torchvision._VERSION_EXCEPTIONS !! k) ->
       ("2.0." : str) `prefix_of` k \/ ("1.10." : str) `prefix_of` k) /\
  size torchvision._VERSION_EXCEPTIONS <> 5 /\
  ~ (forall k : str,
       is_Some (torchvision._VERSION_EXCEPTIONS !! k) ->
       ("2.0." : str) `prefix_of` k \/ ("1.10." : str) `prefix_of` k).
Proof.
  assert (Hsize : size torchvision._VERSION_EXCEPTIONS <> 5).
  { intros E. vm_compute in E. discriminate E. }
  split; [intros [E _]; exact (Hsize E) |]. split; [exact Hsize |].
  intros H. destruct (H ("1.8.2" : str)) as [[k Hk] | [k Hk]].
  - exists ("0.9.1" : str). vm_compute. reflexivity.
  - discriminate Hk.
  - discriminate Hk.
Qed.

(** C7, amended.  The torchvision exception table consists of exactly six
    historical pins: five for the 2.0.x and 1.10.x primary releases, and
    the pin of 1.8.2 to 0.9.1. *)
Theorem C7_six_pins :
  size torchvision._VERSION_EXCEPTIONS = 6 /\
  torchvision._VERSION_EXCEPTIONS !! ("1.8.2" : str) = Some ("0.9.1" : str) /\
  size (delete ("1.8.2" : str) torchvision._VERSION_EXCEPTIONS) = 5 /\
  (forall k : str,
     is_Some (delete ("1.8.2" : str) torchvision._VERSION_EXCEPTIONS !! k) ->
     ("2.0." : str) `prefix_of` k \/ ("1.10." : str) `prefix_of` k) /\
  forall k v : str,
    torchvision._VERSION_EXCEPTIONS !! k = Some v <->
    (k, v) ∈ [("2.0.1" : str, "0.15.2" : str); ("2.0.0" : str, "0.15.1" : str);
              ("1.10.2" : str, "0.11.3" : str);
              ("1.10.1" : str, "0.11.2" : str);
              ("1.10.0" : str, "0.11.1" : str);
              ("1.8.2" : str, "0.9.1" : str)].
Proof.
  split; [by vm_compute |]. split; [by vm_compute |].
  split; [by vm_compute |]. split.
  - intros k [v H]. apply lookup_delete_Some in H as [Hne H].
    table_keys H; try done.
    all: first [left; by eexists | right; by eexists].
  - intros k v. split.
    + apply elem_of_list_to_map_2.
    + intros H.
      repeat (apply elem_of_cons in H as [H | H];
              [injection H as -> ->; by vm_compute |]).
      by apply elem_of_nil in H.
Qed.

Lemma C7_six_pins_witness :
  ("2.0." : str) `prefix_of` ("2.0.1" : str) \/
  ("1.10." : str) `prefix_of` ("2.0.1" : str).
Proof.
  destruct C7_six_pins as (_ & _ & _ & H & _).
  apply (H ("2.0.1" : str)). exists ("0.15.2" : str). reflexivity.
Defined.

(** C8.  The resolver fails with a parse error on every input without a
    run of digits and dots, and on every input whose first such run, once a
    trailing dot is removed, is not made of exactly three integer
    components, such as "1.9" and "1.2.3.4". *)
Theorem C8_parse_errors :
  (forall s : str,
     Forall (fun c => is_numdot c = false) s ->
     find_latest s = Raise AttributeError) /\
  (forall s run : str,
     re_search_numdot s = Some run ->
     (forall ma mi pa, ~ is_version (drop_trailing_dot run) ma mi pa) ->
     exists e, find_latest s = Raise e /\ parse_error e) /\
  find_latest "1.9" = Raise ValueError_unpack /\
  find_latest "1.2.3.4" = Raise ValueError_unpack /\
  parse_error AttributeError /\ parse_error ValueError_unpack.
Proof.
  split; [| split; [| by unfold parse_error; vm_compute; eauto 10]].
  - intros s Hs. unfold find_latest, semantic_version.
    by rewrite re_search_numdot_None.
  - intros s run Hrun Hnot.
    rewrite (find_latest_unfold s run Hrun). simpl.
    apply re_search_numdot_Some in Hrun as [_ Hnd].
    apply drop_trailing_dot_numdot in Hnd.
    destruct (drop_trailing_dot run) as [| c v] eqn:E.
    { exists AttributeError. split; [done | by left]. }
    rewrite <- E in *. assert (Hne : drop_trailing_dot run <> []) by by rewrite E.
    clear E. set (w := drop_trailing_dot run) in *.
    destruct (determine_unfold w w) as (-> & _ & _);
      [by apply re_search_numdot_self |].
    destruct (torchvision._VERSION_EXCEPTIONS !! w) as [x |] eqn:Ex.
    { apply torchvision_pin in Ex as (ma & mi & pa & Ex & _).
      by apply version_unpack3, Hnot in Ex. }
    unfold torchvision.fallback.
    destruct (unpack3 (split dot w)) as [[[ma mi] pa] | e] eqn:Eu.
    { by apply version_unpack3, Hnot in Eu. }
    exists e. split; [done |]. by apply unpack3_Raise in Eu.
Qed.

Lemma C8_parse_errors_witness :
  exists e, find_latest "torch 1.13." = Raise e /\ parse_error e.
Proof.
  destruct C8_parse_errors as (_ & H & _).
  apply (H ("torch 1.13." : str) ("1.13." : str)); [reflexivity |].
  intros ma mi pa Hv%unpack3_version. vm_compute in Hv. discriminate.
Defined.

(** C10.  The torchaudio rule is total on valid versions: it returns the
    version unchanged for every major other than 1, also outside of 1 and 2
    as for "3.0.0", and it never raises the error for an invalid version;
    when the resolver raises that error, it comes from the torchvision or
    the torchtext rule. *)
Theorem C10_torchaudio_total :
  (forall (s run : str) (ma mi pa : N),
     re_search_numdot s = Some run -> is_version run ma mi pa ->
     (exists r, _determine_torchaudio s = OK r) /\
     (ma <> 1%N ->
      _determine_torchaudio s = OK (render [ma; mi; pa]) /\
      is_version (render [ma; mi; pa]) ma mi pa /\
      (s = render [ma; mi; pa] -> _determine_torchaudio s = OK s))) /\
  (forall s msg : str, _determine_torchaudio s <> Raise (ValueError msg)) /\
  (forall s msg : str,
     find_latest s = Raise (ValueError msg) ->
     exists run,
       re_search_numdot s = Some run /\
       (_determine_torchvision (drop_trailing_dot run) = Raise (ValueError msg) \/
        _determine_torchtext (drop_trailing_dot run) = Raise (ValueError msg))) /\
  _determine_torchaudio "3.0.0" = OK ("3.0.0" : str).
Proof.
  split; [| split; [| split; [| by vm_compute]]].
  - intros s run ma mi pa Hrun Hv.
    destruct (determine_unfold s run Hrun) as (_ & _ & ->).
    rewrite (torchaudio_fallback_total run ma mi pa Hv).
    destruct (torchaudio._VERSION_EXCEPTIONS !! run) as [x |] eqn:Ex.
    + split; [by eexists |]. intros Hma. exfalso.
      apply torchaudio_pin_major in Ex as (? & ? & Ex).
      apply unpack3_version in Hv. rewrite Hv in Ex. by simplify_eq.
    + split; [by eexists |]. intros ->%N.eqb_neq. split; [done |].
      split; [apply render_is_version | by intros ->].
  - apply torchaudio_no_ValueError.
  - intros s msg. unfold find_latest at 1, semantic_version.
    destruct (re_search_numdot s) as [run |]; [| done]. simpl.
    intros H. exists run. split; [done |].
    destruct (_determine_torchvision _) as [tv |] eqn:Ev; simpl in H;
      [| left; congruence].
    destruct (_determine_torchtext _) as [tt |] eqn:Et; simpl in H;
      [| right; congruence].
    destruct (_determine_torchaudio _) as [ta |] eqn:Ea; simpl in H; [done |].
    injection H as ->. by apply torchaudio_no_ValueError in Ea.
Qed.

Lemma C10_torchaudio_total_witness :
  (exists r, _determine_torchaudio "7.0.12" = OK r) /\
  _determine_torchaudio "7.0.12" = OK ("7.0.12" : str).
Proof.
  destruct C10_torchaudio_total as (H & _).
  destruct (H ("7.0.12" : str) ("7.0.12" : str) 7%N 0%N 12%N) as [Ht Hr].
  - reflexivity.
  - exists ("7" : str), ("0" : str), ("12" : str). by vm_compute.
  - split; [done |]. by apply Hr.
Defined.

(** * The manifest rewriter *)

(** ** The loop over the lines *)

Lemma adjust_step_line options requires_ req :
  adjust_step options requires_ req =
  requires_ ++ [adjusted_line options req].
Proof.
  unfold adjust_step, adjusted_line.
  by destruct (strip (default [] (split1 hash (strip req) !! 0%nat))).
Qed.

Lemma adjust_loop_map options requires requires_ :
  foldl (adjust_step options) requires_ requires =
  requires_ ++ (adjusted_line options <$> requires).
Proof.
  revert requires_.
  induction requires as [| req requires IH]; intros requires_; simpl.
  - by rewrite app_nil_r.
  - by rewrite IH, adjust_step_line, <- app_assoc.
Qed.

Lemma find_latest_nonempty v options : find_latest v = OK options -> v <> [].
Proof. by intros H ->. Qed.

Lemma adjust_map env requires v options :
  find_latest v = OK options ->
  adjust env requires (Some v) = OK (adjusted_line options <$> requires).
Proof.
  intros H. unfold adjust.
  destruct v as [| c v]; [by apply find_latest_nonempty in H |].
  simpl. rewrite H. simpl. by rewrite adjust_loop_map.
Qed.

(** ** Where the pattern matches *)

Lemma name_then_lookahead_spec lib s :
  name_then_lookahead lib s = true <->
  lib `prefix_of` s /\
  ~ exists c, s !! length lib = Some c /\ is_name_char c = true.
Proof.
  revert s. induction lib as [| a lib IH]; intros [| c s]; simpl.
  - split; [| done]. intros _. split; [by exists [] |]. by intros (? & ? & _).
  - rewrite negb_true_iff. split.
    + intros H. split; [by eexists |]. intros (c' & [= <-] & Hc). congruence.
    + intros [_ H]. destruct (is_name_char c) eqn:E; [| done].
      destruct H. by exists c.
  - split; [done |]. by intros [[k Hk] _].
  - rewrite andb_true_iff, bool_decide_eq_true, IH. split.
    + intros (<- & Hp & Hn). split; [| done]. by apply prefix_cons.
    + intros [Hp Hn]. apply prefix_cons_inv_1 in Hp as Hac.
      apply prefix_cons_inv_2 in Hp. done.
Qed.

Lemma match_at_occurs lib pw s p :
  match_at lib pw (drop p s) = true ->
  occurs_at lib s p /\ ~ extended_at lib s p.
Proof.
  unfold match_at, occurs_at, extended_at.
  intros [_ [Hp Hn]%name_then_lookahead_spec]%andb_true_iff.
  split; [done |]. intros (c & Hc & Hname). apply Hn. exists c.
  by rewrite lookup_drop.
Qed.

Lemma match_at_extended lib pw c rest :
  is_name_char c = true -> match_at lib pw (lib ++ c :: rest) = false.
Proof.
  intros Hc. unfold match_at. apply andb_false_iff. right.
  apply not_true_iff_false. intros [_ Hn]%name_then_lookahead_spec.
  apply Hn. exists c. split; [| done].
  by rewrite lookup_app_r, Nat.sub_diag by done.
Qed.

Lemma re_sub_from_no_match lib repl pw s :
  (forall p, match_at lib (if p is S q then
                             from_option is_word false (s !! q) else pw)
                      (drop p s) = false) ->
  re_sub_from lib repl Searching pw s = s.
Proof.
  revert pw. induction s as [| c s IH]; intros pw H; simpl; [done |].
  pose proof (H 0%nat) as H0. simpl in H0. rewrite H0.
  f_equal. apply IH. intros [| q].
  - apply (H 1%nat).
  - apply (H (S (S q))).
Qed.

Lemma re_sub_from_changed lib repl pw s :
  re_sub_from lib repl Searching pw s <> s ->
  exists p pw', match_at lib pw' (drop p s) = true.
Proof.
  revert pw. induction s as [| c s IH]; intros pw; simpl; [done |].
  destruct (match_at lib pw (c :: s)) eqn:E.
  - intros _. by exists 0%nat, pw.
  - intros H. destruct (IH (is_word c)) as (p & pw' & Hp); [congruence |].
    by exists (S p), pw'.
Qed.

Lemma re_sub_extended lib repl s :
  (forall p, occurs_at lib s p -> extended_at lib s p) ->
  re_sub lib repl s = s.
Proof.
  intros H. apply re_sub_from_no_match. intros p.
  apply not_true_iff_false. intros [Ho Hn]%match_at_occurs. auto.
Qed.

Lemma substitute_extended options req :
  (forall lib version p,
     (lib, version) ∈ options ->
     occurs_at lib req p -> extended_at lib req p) ->
  substitute options req = req.
Proof.
  unfold substitute. induction options as [| [lib version] options IH];
    intros H; simpl; [done |].
  rewrite re_sub_extended.
  - apply IH. intros lib' version' p Hin. apply (H lib' version'). by right.
  - intros p. apply (H lib version). by left.
Qed.

(** C4.  For every list of lines and every primary version that the
    resolver accepts, [adjust] returns as many lines as it was given, and
    the i-th line of the result depends on the i-th line given only: no
    line is moved, added or dropped. *)
Theorem C4_lines_preserved :
  forall (env : option str) (v : str) (options : list (str * str)),
    find_latest v = OK options ->
    exists f : str -> str,
      forall requires : list str,
        exists out,
          adjust env requires (Some v) = OK out /\
          length out = length requires /\
          forall i : nat, out !! i = f <$> requires !! i.
Proof.
  intros env v options H. exists (adjusted_line options). intros requires.
  exists (adjusted_line options <$> requires).
  split; [by apply adjust_map |]. split; [by rewrite length_fmap |].
  intros i. by rewrite list_lookup_fmap.
Qed.

Lemma C4_lines_preserved_witness :
  exists f : str -> str,
    forall requires : list str,
      exists out,
        adjust None requires (Some ("1.10.0" : str)) = OK out /\
        length out = length requires /\
        forall i : nat, out !! i = f <$> requires !! i.
Proof.
  eapply (C4_lines_preserved None ("1.10.0" : str)). by vm_compute.
Defined.

(** ** The substitution within a line *)

Section OneName.

Variable lib : str.
Hypothesis lib_word : Forall (fun c => is_word c = true) lib.
Hypothesis lib_nonempty : lib <> [].

Lemma last_word_app pw a b : last_word pw (a ++ b) = last_word (last_word pw a) b.
Proof. revert pw. induction a as [| c a IH]; intros pw; simpl; [done | apply IH]. Qed.

Lemma name_then_lookahead_cut l d pre x :
  Forall (fun c => is_word c = true) l ->
  last_word (is_word d) pre = false ->
  name_then_lookahead l (d :: pre ++ x) = name_then_lookahead l (d :: pre).
Proof.
  revert l d. induction pre as [| e pre IH]; intros l d Hl Hlast; simpl in *.
  - destruct l as [| a l]; [done |]. simpl.
    rewrite bool_decide_eq_false_2; [done |]. intros ->.
    apply Forall_cons in Hl as [Ha _]. congruence.
  - destruct l as [| a l]; [done |]. simpl. f_equal.
    apply Forall_cons in Hl as [_ Hl]. by apply IH.
Qed.

Lemma match_at_cut pw d pre x :
  last_word (is_word d) pre = false ->
  match_at lib pw (d :: pre ++ x) = match_at lib pw (d :: pre).
Proof.
  intros H. unfold match_at. simpl word_boundary.
  by rewrite name_then_lookahead_cut.
Qed.

Lemma match_at_inv pw m :
  match_at lib pw m = true ->
  pw = false /\ exists c m', m = c :: m' /\ is_word c = true /\ lib `prefix_of` m.
Proof.
  unfold match_at. intros [Hb Hn]%andb_true_iff.
  apply name_then_lookahead_spec in Hn as [Hp _].
  destruct lib as [| a l]; [done |]. destruct m as [| c m']; [by destruct Hp as [? ?] |].
  apply prefix_cons_inv_1 in Hp as Hac. subst c.
  apply Forall_cons in lib_word as [Ha _].
  unfold word_boundary in Hb. rewrite Ha in Hb.
  split; [by destruct pw |]. eauto 6.
Qed.

Lemma find_match_app pw pre x :
  last_word pw pre = false ->
  find_match lib pw (pre ++ x) =
  match find_match lib pw pre with
  | Some (p, m) => Some (p, m ++ x)
  | None => prod_map (app pre) id <$> find_match lib false x
  end.
Proof.
  revert pw. induction pre as [| d pre IH]; intros pw Hlast; simpl in *.
  - subst pw. by destruct (find_match lib false x) as [[? ?] |].
  - rewrite match_at_cut by done.
    destruct (match_at lib pw (d :: pre)); [done |].
    rewrite IH by done.
    destruct (find_match lib (is_word d) pre) as [[p m] |]; [done |]. simpl.
    by destruct (find_match lib false x) as [[? ?] |].
Qed.

Lemma find_match_split pw s pre m :
  find_match lib pw s = Some (pre, m) ->
  s = pre ++ m /\ match_at lib (last_word pw pre) m = true.
Proof.
  revert pw pre. induction s as [| c s IH]; intros pw pre; simpl; [done |].
  destruct (match_at lib pw (c :: s)) eqn:E.
  - by intros [= <- <-].
  - destruct (find_match lib (is_word c) s) as [[p m'] |] eqn:Ef; [| done].
    simpl. intros [= <- <-]. destruct (IH _ _ Ef) as [-> Hm]. done.
Qed.

Lemma find_match_Some pw s pre m :
  find_match lib pw s = Some (pre, m) ->
  s = pre ++ m /\ match_at lib false m = true /\
  last_word pw pre = false /\ find_match lib pw pre = None.
Proof.
  intros H. destruct (find_match_split _ _ _ _ H) as [-> Hm].
  destruct (match_at_inv _ _ Hm) as (Hlast & c & m' & -> & Hc & Hp).
  rewrite Hlast in Hm. repeat split; try done.
  rewrite find_match_app in H by done.
  destruct (find_match lib pw pre) as [[p m0] |] eqn:E; [| done].
  exfalso. injection H as -> Hm0.
  destruct (find_match_split _ _ _ _ E) as [Hpre Hm1].
  apply (f_equal length) in Hm0. rewrite length_app in Hm0.
  destruct m0; [| simpl in Hm0; lia].
  by apply match_at_inv in Hm1 as (_ & ? & ? & ? & _).
Qed.

Lemma line_sub_find repl pw s :
  line_sub lib repl pw s =
  match find_match lib pw s with
  | Some (pre, _) => pre ++ repl
  | None => s
  end.
Proof.
  revert pw. induction s as [| c s IH]; intros pw; simpl; [done |].
  destruct (match_at lib pw (c :: s)); [done |]. rewrite IH.
  by destruct (find_match lib (is_word c) s) as [[? ?] |].
Qed.

Lemma line_sub_app repl pw pre x :
  last_word pw pre = false -> find_match lib pw pre = None ->
  line_sub lib repl pw (pre ++ x) = pre ++ line_sub lib repl false x.
Proof.
  intros Hlast Hnone. rewrite !line_sub_find, find_match_app, Hnone by done.
  by destruct (find_match lib false x) as [[? ?] |]; simpl; rewrite ?app_assoc.
Qed.

Lemma line_sub_idem repl pw s :
  match_at lib false repl = true ->
  line_sub lib repl pw (line_sub lib repl pw s) = line_sub lib repl pw s.
Proof.
  intros Hrepl. rewrite (line_sub_find repl pw s).
  destruct (find_match lib pw s) as [[pre m] |] eqn:E.
  - apply find_match_Some in E as (_ & _ & Hlast & Hnone).
    rewrite line_sub_app by done. f_equal.
    destruct repl as [| c r]; [done |]. simpl. by rewrite Hrepl.
  - by rewrite line_sub_find, E.
Qed.

(** The replacement [lib==version] starts a match of [lib] itself. *)
Lemma match_at_pin version :
  match_at lib false (lib ++ "==" ++ version) = true.
Proof.
  unfold match_at. apply andb_true_iff. split.
  - destruct lib as [| a l]; [done |].
    apply Forall_cons in lib_word as [Ha _]. simpl. by rewrite Ha.
  - apply name_then_lookahead_spec. split; [by eexists |].
    intros (c & Hc & Hname).
    rewrite lookup_app_r, Nat.sub_diag in Hc by done. by injection Hc as <-.
Qed.

(** No match starts within a version, nor within what follows the name in
    a replacement. *)
Lemma find_match_numdot pw v :
  (forall a l, lib = a :: l -> is_numdot a = false) ->
  Forall (fun c => is_numdot c = true) v ->
  find_match lib pw v = None.
Proof.
  intros Ha Hv. revert pw. induction Hv as [| c v Hc _ IH]; intros pw; simpl;
    [done |].
  rewrite IH. unfold match_at.
  destruct lib as [| a l]; [done |]. simpl.
  rewrite bool_decide_eq_false_2, andb_false_r; [done |].
  intros ->. specialize (Ha _ _ eq_refl). congruence.
Qed.

End OneName.

Section TwoNames.

Variables lib lib' : str.
Hypothesis lib_word : Forall (fun c => is_word c = true) lib.
Hypothesis lib_nonempty : lib <> [].
Hypothesis lib'_word : Forall (fun c => is_word c = true) lib'.
Hypothesis lib'_nonempty : lib' <> [].

Variables repl repl' : str.

(** [lib'] finds no match within the replacement of [lib]. *)
Hypothesis cross : find_match lib' false repl = None.

(** No match of [lib] starts in the replacement of [lib'] after its name. *)
Hypothesis tail :
  forall m' m, repl' = m' ++ m -> lib' `prefix_of` m' -> ~ lib `prefix_of` m.

Lemma line_sub_preserves pw s :
  line_sub lib' repl' pw s = s ->
  line_sub lib' repl' pw (line_sub lib repl pw s) = line_sub lib repl pw s.
Proof.
  intros Hfix. rewrite (line_sub_find lib repl pw s).
  destruct (find_match lib pw s) as [[pre m] |] eqn:E; [| done].
  apply find_match_Some in E as (-> & Hm & Hlast & Hnone); [| done..].
  destruct (find_match lib' pw pre) as [[p m0] |] eqn:E'.
  - exfalso. rewrite line_sub_find, find_match_app, E' in Hfix by done.
    apply find_match_split in E' as [-> Hm0].
    rewrite <- !app_assoc in Hfix. apply app_inv_head in Hfix.
    apply match_at_inv in Hm as (_ & _ & _ & _ & _ & Hp); [| done..].
    apply match_at_inv in Hm0 as (_ & _ & _ & _ & _ & Hp0); [| done..].
    by apply (tail m0 m).
  - rewrite line_sub_app by done. f_equal.
    by rewrite line_sub_find, cross.
Qed.

End TwoNames.


(** ** From the scan of the text to its lines *)

Lemma join_cons_cons1 c x y ys :
  join [c] (x :: y :: ys) = x ++ c :: join [c] (y :: ys).
Proof. done. Qed.

Lemma join_cons_app sep c x ys :
  join sep ((c :: x) :: ys) = c :: join sep (x :: ys).
Proof. by destruct ys. Qed.

Lemma split_join sep first rest :
  Forall (fun p => sep ∉ p) (first :: rest) ->
  split sep (join [sep] (first :: rest)) = first :: rest.
Proof.
  revert first. induction rest as [| r rest IH]; intros first H.
  - apply Forall_cons in H as [H _]. by apply split_no_sep.
  - apply Forall_cons in H as [Hf H]. rewrite join_cons_cons1.
    rewrite split_app_sep by done. by rewrite IH.
Qed.

Lemma name_then_lookahead_line l s x :
  newline ∉ l ->
  name_then_lookahead l (s ++ newline :: x) = name_then_lookahead l s.
Proof.
  revert s. induction l as [| a l IH]; intros [| c s] Hl; simpl; try done.
  - apply not_elem_of_cons in Hl as [Ha _]. by rewrite bool_decide_eq_false_2.
  - apply not_elem_of_cons in Hl as [_ Hl]. by rewrite IH.
Qed.

Lemma match_at_line l pw s x :
  newline ∉ l ->
  match_at l pw (s ++ newline :: x) = match_at l pw s.
Proof.
  intros Hl. unfold match_at. rewrite name_then_lookahead_line by done.
  by destruct s.
Qed.

Lemma match_at_first_line l pw first rest :
  newline ∉ l ->
  match_at l pw (join [newline] (first :: rest)) = match_at l pw first.
Proof.
  intros Hl. destruct rest as [| r rest]; [done |].
  rewrite join_cons_cons1. by apply match_at_line.
Qed.

Arguments join : simpl never.

Section Lines.

Variables lib repl : str.
Hypothesis lib_word : Forall (fun c => is_word c = true) lib.
Hypothesis lib_nonempty : lib <> [].

Lemma lib_no_newline : newline ∉ lib.
Proof.
  intros H. pose proof lib_word as Hw. rewrite Forall_forall in Hw.
  by apply Hw in H.
Qed.

Lemma match_at_newline pw s : match_at lib pw (newline :: s) = false.
Proof.
  pose proof lib_no_newline as Hn. pose proof lib_nonempty as Hne.
  unfold match_at. destruct lib as [| a l]; [done |]. simpl.
  rewrite bool_decide_eq_false_2, andb_false_r; [done |].
  intros ->. apply Hn. by left.
Qed.

Lemma re_sub_from_lines rest first st pw :
  Forall (fun p => newline ∉ p) (first :: rest) ->
  (forall k, st = Matching k -> k <= length first) ->
  re_sub_from lib repl st pw (join [newline] (first :: rest)) =
  join [newline]
    (line_start lib repl st pw first :: (line_sub lib repl false <$> rest)).
Proof.
  revert first st pw. induction rest as [| r rest IHr]; intros first;
    induction first as [| c first IHf]; intros st pw Hnl Hk.
  - by destruct st.
  - apply Forall_cons in Hnl as [[Hc Hf]%not_elem_of_cons _].
    assert (Hnl' : Forall (fun p : str => newline ∉ p) [first])
      by by repeat constructor.
    change (join [newline] [c :: first]) with (c :: first).
    change (join [newline] [first]) with first in IHf.
    change (join [newline] [line_start lib repl st pw (c :: first)])
      with (line_start lib repl st pw (c :: first)).
    assert (IHf' : forall st pw,
      (forall k, st = Matching k -> k <= length first) ->
      re_sub_from lib repl st pw first = line_start lib repl st pw first).
    { intros st' pw' Hk'. by apply (IHf st' pw'). }
    clear IHf. rename IHf' into IHf.
    destruct st as [| [| k]]; simpl.
    + destruct (match_at lib pw (c :: first)) eqn:E.
      * rewrite IHf; [simpl; by rewrite app_nil_r |].
        intros k [= <-].
        apply match_at_inv in E as (_ & _ & _ & _ & _ & Hp); [| done..].
        apply prefix_length in Hp. simpl in Hp. lia.
      * by rewrite IHf.
    + rewrite decide_False by done.
      rewrite IHf; [done |]. intros k [= <-]. lia.
    + rewrite IHf; [done |]. intros k' [= <-].
      specialize (Hk _ eq_refl). simpl in Hk. lia.
  - apply Forall_cons in Hnl as [_ Hnl].
    rewrite fmap_cons, !join_cons_cons1. simpl.
    destruct st as [| [| k]].
    + rewrite match_at_newline. simpl. f_equal. by rewrite IHr.
    + rewrite match_at_newline. simpl. f_equal. by rewrite IHr.
    + specialize (Hk _ eq_refl). simpl in Hk. lia.
  - apply Forall_cons in Hnl as [[Hc Hf]%not_elem_of_cons Hnl].
    assert (Hnl' : Forall (fun p : str => newline ∉ p) (first :: r :: rest))
      by by constructor.
    rewrite join_cons_app. simpl re_sub_from.
    rewrite <- (join_cons_app [newline] c first (r :: rest)).
    rewrite match_at_first_line by apply lib_no_newline.
    destruct st as [| [| k]].
    + simpl line_start. destruct (match_at lib pw (c :: first)) eqn:E.
      * rewrite IHf; [done | done |].
        intros k [= <-].
        apply match_at_inv in E as (_ & _ & _ & _ & _ & Hp); [| done..].
        apply prefix_length in Hp. simpl in Hp. lia.
      * rewrite IHf by done. by rewrite join_cons_app.
    + rewrite decide_False by done.
      rewrite IHf; [done | done |]. intros k [= <-]. lia.
    + rewrite IHf; [done | done |]. intros k' [= <-].
      specialize (Hk _ eq_refl). simpl in Hk. lia.
Qed.

Lemma re_sub_lines s :
  re_sub lib repl s =
  join [newline] (line_sub lib repl false <$> split newline s).
Proof.
  unfold re_sub. rewrite <- (join_split newline s) at 1.
  pose proof (split_no_sep_pieces newline s) as H.
  destruct (split newline s) as [| first rest] eqn:E;
    [by apply split_nonempty in E |].
  by rewrite re_sub_from_lines.
Qed.

End Lines.

(** ** The substitution on a text of several lines *)

Lemma line_sub_Forall (P : ascii -> Prop) lib repl pw s :
  Forall P repl -> Forall P s -> Forall P (line_sub lib repl pw s).
Proof.
  intros Hr Hs. revert pw. induction Hs as [| c s Hc Hs IH]; intros pw; simpl;
    [done |].
  destruct (match_at lib pw (c :: s)); [done |]. by constructor.
Qed.

Lemma Forall_not_elem_of (c : ascii) (s : str) :
  c ∉ s <-> Forall (fun x => x <> c) s.
Proof.
  rewrite Forall_forall. split.
  - intros H x Hx ->. done.
  - intros H Hc. by apply (H c).
Qed.

Lemma line_sub_lines (l r : str) (ls : list str) :
  newline ∉ r ->
  Forall (fun p => newline ∉ p) ls ->
  Forall (fun p => newline ∉ p) (line_sub l r false <$> ls).
Proof.
  intros Hr H. apply Forall_fmap. eapply Forall_impl; [done |]. simpl.
  intros s Hs.
  apply Forall_not_elem_of, line_sub_Forall; by apply Forall_not_elem_of.
Qed.

Section TwoRules.

Variables lib lib' : str.
Hypothesis lib_word : Forall (fun c => is_word c = true) lib.
Hypothesis lib_nonempty : lib <> [].
Hypothesis lib'_word : Forall (fun c => is_word c = true) lib'.
Hypothesis lib'_nonempty : lib' <> [].

Variables repl repl' : str.
Hypothesis repl_line : newline ∉ repl.
Hypothesis repl'_line : newline ∉ repl'.

Lemma re_sub_re_sub s :
  re_sub lib' repl' (re_sub lib repl s) =
  join [newline]
    ((fun l => line_sub lib' repl' false (line_sub lib repl false l))
       <$> split newline s).
Proof.
  rewrite (re_sub_lines lib' repl') by done.
  rewrite (re_sub_lines lib repl) by done.
  pose proof (split_no_sep_pieces newline s) as H.
  destruct (split newline s) as [| first rest] eqn:E;
    [by apply split_nonempty in E |].
  pose proof (line_sub_lines lib repl _ repl_line H) as H'.
  rewrite fmap_cons in H' |- *. rewrite split_join by done.
  by rewrite <- fmap_cons, <- list_fmap_compose.
Qed.

Lemma re_sub_fixed_lines s :
  re_sub lib' repl' s = s ->
  Forall (fun l => line_sub lib' repl' false l = l) (split newline s).
Proof.
  intros Hfix. rewrite (re_sub_lines lib' repl') in Hfix by done.
  apply (f_equal (split newline)) in Hfix.
  pose proof (split_no_sep_pieces newline s) as H.
  destruct (split newline s) as [| first rest] eqn:E;
    [by apply split_nonempty in E |].
  pose proof (line_sub_lines lib' repl' _ repl'_line H) as H'.
  rewrite fmap_cons in H', Hfix. rewrite split_join in Hfix by done.
  rewrite <- fmap_cons in Hfix. clear E H H'.
  induction (first :: rest) as [| l ls IH]; [done |].
  injection Hfix as Hl Hls. constructor; auto.
Qed.

Hypothesis cross : find_match lib' false repl = None.
Hypothesis tail :
  forall m' m, repl' = m' ++ m -> lib' `prefix_of` m' -> ~ lib `prefix_of` m.

(** A text that the rule of [lib'] leaves as it is stays so under the rule
    of [lib]. *)
Lemma re_sub_preserves s :
  re_sub lib' repl' s = s ->
  re_sub lib' repl' (re_sub lib repl s) = re_sub lib repl s.
Proof.
  intros Hfix%re_sub_fixed_lines.
  rewrite re_sub_re_sub, (re_sub_lines lib repl) by done. f_equal.
  apply Forall_fmap_ext. eapply Forall_impl; [done |]. simpl.
  intros l Hl. by apply (line_sub_preserves lib lib').
Qed.

End TwoRules.

Lemma re_sub_idem lib repl s :
  Forall (fun c => is_word c = true) lib -> lib <> [] ->
  newline ∉ repl -> match_at lib false repl = true ->
  re_sub lib repl (re_sub lib repl s) = re_sub lib repl s.
Proof.
  intros Hw Hne Hr Hm.
  rewrite re_sub_re_sub, (re_sub_lines lib repl) by done. f_equal.
  apply Forall_fmap_ext, Forall_forall. intros l _.
  by apply line_sub_idem.
Qed.

(** ** The rules of the four companions *)

Lemma plain_name_torch : plain_name "torch".
Proof. unfold plain_name. split; [done |]. split; by repeat constructor. Qed.

Lemma plain_name_torchvision : plain_name "torchvision".
Proof. unfold plain_name. split; [done |]. split; by repeat constructor. Qed.

Lemma plain_name_torchtext : plain_name "torchtext".
Proof. unfold plain_name. split; [done |]. split; by repeat constructor. Qed.

Lemma plain_name_torchaudio : plain_name "torchaudio".
Proof. unfold plain_name. split; [done |]. split; by repeat constructor. Qed.

Lemma replacement_pin lib v :
  v <> [] -> replacement lib v = lib ++ "==" ++ v.
Proof. by destruct v. Qed.

Lemma pin_Forall (P : ascii -> Prop) lib v :
  Forall P lib -> P "="%char -> Forall P v -> Forall P (lib ++ "==" ++ v).
Proof.
  intros Hl He Hv. apply Forall_app. split; [done |].
  by repeat constructor.
Qed.

Lemma pin_no_newline lib v :
  plain_name lib -> version_text v -> newline ∉ lib ++ "==" ++ v.
Proof.
  intros (_ & Hw & _) [_ Hv]. apply Forall_not_elem_of, pin_Forall; [| done |].
  - eapply Forall_impl; [done |]. by intros c Hc ->.
  - eapply Forall_impl; [done |]. by intros c Hc ->.
Qed.

(** A name finds no match in the replacement of another name, given that
    it finds none up to the two equal signs. *)
Lemma pin_cross lib lib' v :
  plain_name lib' -> version_text v ->
  find_match lib' false (lib ++ "==") = None ->
  find_match lib' false (lib ++ "==" ++ v) = None.
Proof.
  intros (Hne & Hw & Hn) [_ Hv] H.
  rewrite app_assoc, find_match_app, H; [| done |].
  - rewrite find_match_numdot; try done.
    intros a l ->. by apply Forall_cons in Hn as [? _].
  - by rewrite last_word_app.
Qed.

(** After its name, the replacement of a name holds nothing that starts
    another name. *)
Lemma pin_tail lib lib' v' m' m :
  plain_name lib -> version_text v' ->
  lib' ++ "==" ++ v' = m' ++ m -> lib' `prefix_of` m' -> ~ lib `prefix_of` m.
Proof.
  intros (Hne & Hw & Hn) [_ Hv] Heq [k ->] [k' ->].
  rewrite <- app_assoc in Heq. apply app_inv_head in Heq.
  destruct lib as [| a l]; [done |].
  apply Forall_cons in Hw as [Hw _]. apply Forall_cons in Hn as [Hn _].
  assert (Ha : a ∈ ("==" : str) ++ v').
  { rewrite Heq. apply elem_of_app. right. by left. }
  apply elem_of_app in Ha as [Ha | Ha].
  - repeat (apply elem_of_cons in Ha as [-> | Ha]; [done |]).
    by apply elem_of_nil in Ha.
  - rewrite Forall_forall in Hv. apply Hv in Ha. congruence.
Qed.

(** ** The sequence of rules *)

Lemma substitute_rules options req :
  substitute options req = foldl (fun req item => rule item req) req options.
Proof.
  unfold substitute. revert req.
  induction options as [| [lib v] options IH]; intros req; simpl; [done |].
  apply IH.
Qed.

Lemma substitute_cons item options req :
  substitute (item :: options) req = substitute options (rule item req).
Proof. by rewrite !substitute_rules. Qed.

Lemma substitute_app options options' req :
  substitute (options ++ options') req =
  substitute options' (substitute options req).
Proof. by rewrite !substitute_rules, foldl_app. Qed.

Lemma substitute_unchanged options s :
  (forall item, item ∈ options -> rule item s = s) ->
  substitute options s = s.
Proof.
  induction options as [| item options IH]; intros H; [done |].
  rewrite substitute_cons, H by by left. apply IH. intros item' Hin.
  apply H. by right.
Qed.

Section Rules.

Variable options : list (str * str).

(** Every rule is idempotent, and keeps what another rule has fixed. *)
Hypothesis idem :
  forall item s, item ∈ options -> rule item (rule item s) = rule item s.
Hypothesis keep :
  forall item item' s,
    item ∈ options -> item' ∈ options ->
    rule item' s = s -> rule item' (rule item s) = rule item s.

Lemma substitute_fixed_prefix before after s item :
  options = before ++ after -> item ∈ before ->
  rule item (substitute before s) = substitute before s.
Proof.
  revert after. induction before as [| x before IH] using rev_ind;
    intros after Ho Hin; [by apply elem_of_nil in Hin |].
  assert (Hx : x ∈ options).
  { rewrite Ho. apply elem_of_app. left. apply elem_of_app. right. by left. }
  rewrite substitute_app, substitute_cons. simpl.
  apply elem_of_app in Hin as [Hin | ->%list_elem_of_singleton].
  - apply keep; [done | |].
    + rewrite Ho. apply elem_of_app. left. apply elem_of_app. by left.
    + apply (IH ([x] ++ after)); [by rewrite Ho, <- app_assoc | done].
  - by apply idem.
Qed.

Lemma substitute_fixed s item :
  item ∈ options -> rule item (substitute options s) = substitute options s.
Proof.
  intros Hin. apply (substitute_fixed_prefix options []); [| done].
  by rewrite app_nil_r.
Qed.

Lemma substitute_idem s :
  substitute options (substitute options s) = substitute options s.
Proof. apply substitute_unchanged. intros item Hin. by apply substitute_fixed. Qed.

Lemma substitute_single before item after s :
  options = before ++ item :: after ->
  (forall item', item' ∈ before ++ after -> rule item' s = s) ->
  substitute options s = rule item s.
Proof.
  intros Ho H. rewrite Ho, substitute_app, substitute_cons.
  rewrite (substitute_unchanged before).
  - apply substitute_unchanged. intros item' Hin. apply keep.
    + rewrite Ho. apply elem_of_app. right. by left.
    + rewrite Ho. apply elem_of_app. right. by right.
    + apply H. apply elem_of_app. by right.
  - intros item' Hin. apply H. apply elem_of_app. by left.
Qed.

End Rules.

Lemma rule_idem lib v s :
  plain_name lib -> version_text v ->
  rule (lib, v) (rule (lib, v) s) = rule (lib, v) s.
Proof.
  intros Hl Hv. unfold rule. simpl.
  rewrite replacement_pin by apply Hv.
  destruct Hl as (Hne & Hw & Hn).
  apply re_sub_idem; try done.
  - by apply pin_no_newline.
  - by apply match_at_pin.
Qed.

Lemma rule_keep lib v lib' v' s :
  plain_name lib -> version_text v -> plain_name lib' -> version_text v' ->
  find_match lib' false (lib ++ "==") = None ->
  rule (lib', v') s = s ->
  rule (lib', v') (rule (lib, v) s) = rule (lib, v) s.
Proof.
  intros Hl Hv Hl' Hv' Hcross. unfold rule. simpl.
  rewrite !replacement_pin by (apply Hv || apply Hv').
  apply re_sub_preserves; try apply Hl; try apply Hl'.
  - by apply pin_no_newline.
  - by apply pin_no_newline.
  - by apply pin_cross.
  - intros m' m. by apply pin_tail.
Qed.

Lemma aligned_elem options item :
  aligned options -> item ∈ options ->
  exists lib v,
    item = (lib, v) /\ version_text v /\
    lib ∈ [("torch" : str); ("torchvision" : str); ("torchtext" : str);
           ("torchaudio" : str)] /\
    forall v', (lib, v') ∈ options -> v' = v.
Proof.
  intros (v0 & v1 & v2 & v3 & -> & H0 & H1 & H2 & H3) Hin.
  repeat (apply elem_of_cons in Hin as [-> | Hin]);
    [.. | by apply elem_of_nil in Hin].
  all: eexists _, _; split; [done |]; split; [done |]; split;
    [set_solver |].
  all: intros v' Hin;
    repeat (apply elem_of_cons in Hin as [Hin | Hin]; [by simplify_eq |]);
    by apply elem_of_nil in Hin.
Qed.

Lemma companion_plain lib :
  lib ∈ [("torch" : str); ("torchvision" : str); ("torchtext" : str);
         ("torchaudio" : str)] ->
  plain_name lib.
Proof.
  intros H. repeat (apply elem_of_cons in H as [-> | H]);
    [.. | by apply elem_of_nil in H];
    auto using plain_name_torch, plain_name_torchvision, plain_name_torchtext,
      plain_name_torchaudio.
Qed.

Lemma companion_cross lib lib' :
  lib ∈ [("torch" : str); ("torchvision" : str); ("torchtext" : str);
         ("torchaudio" : str)] ->
  lib' ∈ [("torch" : str); ("torchvision" : str); ("torchtext" : str);
          ("torchaudio" : str)] ->
  lib = lib' \/ find_match lib' false (lib ++ "==") = None.
Proof.
  intros H H'.
  repeat (apply elem_of_cons in H as [-> | H]);
    [.. | by apply elem_of_nil in H].
  all: repeat (apply elem_of_cons in H' as [-> | H']);
    [.. | by apply elem_of_nil in H'].
  all: first [by left | right; by vm_compute].
Qed.

Lemma aligned_idem options item s :
  aligned options -> item ∈ options ->
  rule item (rule item s) = rule item s.
Proof.
  intros Ha Hin.
  destruct (aligned_elem _ _ Ha Hin) as (lib & v & -> & Hv & Hl & _).
  apply rule_idem; [by apply companion_plain | done].
Qed.

Lemma aligned_keep options item item' s :
  aligned options -> item ∈ options -> item' ∈ options ->
  rule item' s = s -> rule item' (rule item s) = rule item s.
Proof.
  intros Ha Hin Hin' Hfix.
  destruct (aligned_elem _ _ Ha Hin) as (lib & v & -> & Hv & Hl & Hu).
  destruct (aligned_elem _ _ Ha Hin') as (lib' & v' & -> & Hv' & Hl' & _).
  destruct (companion_cross lib lib' Hl Hl') as [<- | Hcross].
  - apply Hu in Hin' as ->. by rewrite !Hfix.
  - apply rule_keep; auto using companion_plain.
Qed.

(** ** The resolved versions are digits and dots *)

Lemma string_of_uint_digits d :
  Forall (fun c => is_digit c = true)
    (list_ascii_of_string (NilEmpty.string_of_uint d)).
Proof. induction d; simpl; by constructor. Qed.

Lemma str_of_int_digits n :
  str_of_int n <> [] /\ Forall (fun c => is_digit c = true) (str_of_int n).
Proof.
  unfold str_of_int, NilZero.string_of_uint.
  pose proof (string_of_uint_digits (N.to_uint n)) as H.
  destruct (N.to_uint n); simpl in *; split; try done; by repeat constructor.
Qed.

Lemma render_version_text a b c : version_text (render [a; b; c]).
Proof.
  unfold render. simpl fmap. rewrite !join_cons_cons1.
  change (join [dot] [str_of_int c]) with (str_of_int c).
  destruct (str_of_int_digits a) as [Ha Da].
  destruct (str_of_int_digits b) as [_ Db].
  destruct (str_of_int_digits c) as [_ Dc].
  split; [by destruct (str_of_int a) |].
  rewrite Forall_app, Forall_cons, Forall_app, Forall_cons.
  repeat split; try done; eapply Forall_impl; eauto using is_digit_numdot.
Qed.

Ltac table_values H :=
  apply elem_of_list_to_map_2 in H;
  repeat (apply elem_of_cons in H as [H | H];
          [injection H as -> ->; split; [done | by repeat constructor] |]);
  by apply elem_of_nil in H.

Lemma determine_torchvision_text s r :
  _determine_torchvision s = OK r -> version_text r.
Proof.
  unfold _determine_torchvision, semantic_version.
  destruct (re_search_numdot s) as [run |]; [| done]. simpl.
  destruct (torchvision._VERSION_EXCEPTIONS !! run) as [v |] eqn:E.
  - intros [= <-]. table_values E.
  - unfold torchvision.fallback.
    destruct (unpack3 (split dot run)) as [[[ma mi] pa] |]; [| done]. simpl.
    destruct (ma =? 1)%N; [| destruct (ma =? 2)%N]; simpl; try done.
    all: intros [= <-]; apply render_version_text.
Qed.

Lemma determine_torchtext_text s r :
  _determine_torchtext s = OK r -> version_text r.
Proof.
  unfold _determine_torchtext, semantic_version.
  destruct (re_search_numdot s) as [run |]; [| done]. simpl.
  destruct (torchtext._VERSION_EXCEPTIONS !! run) as [v |] eqn:E.
  - intros [= <-]. table_values E.
  - unfold torchtext.fallback.
    destruct (unpack3 (split dot run)) as [[[ma mi] pa] |]; [| done]. simpl.
    destruct (ma =? 1)%N; [| destruct (ma =? 2)%N; [destruct (3 <=? mi)%N |]];
      simpl; try done.
    all: intros [= <-]; apply render_version_text.
Qed.

Lemma determine_torchaudio_text s r :
  _determine_torchaudio s = OK r -> version_text r.
Proof.
  unfold _determine_torchaudio, semantic_version.
  destruct (re_search_numdot s) as [run |]; [| done]. simpl.
  destruct (torchaudio._VERSION_EXCEPTIONS !! run) as [v |] eqn:E.
  - intros [= <-]. table_values E.
  - unfold torchaudio.fallback.
    destruct (unpack3 (split dot run)) as [[[ma mi] pa] |]; [| done]. simpl.
    destruct (ma =? 1)%N; simpl.
    all: intros [= <-]; apply render_version_text.
Qed.

Lemma find_latest_aligned s options :
  find_latest s = OK options -> aligned options.
Proof.
  unfold find_latest, semantic_version.
  destruct (re_search_numdot s) as [run |] eqn:Erun; [| done]. simpl.
  destruct (_determine_torchvision _) as [tv |] eqn:Ev; [| done]. simpl.
  destruct (_determine_torchtext _) as [tt |] eqn:Et; [| done]. simpl.
  destruct (_determine_torchaudio _) as [ta |] eqn:Ea; [| done]. simpl.
  intros [= <-]. exists (drop_trailing_dot run), tv, tt, ta.
  split; [done |].
  split; [| split; [| split]].
  - split.
    + intros E. by rewrite E in Ev.
    + apply drop_trailing_dot_numdot.
      by apply re_search_numdot_Some in Erun as [_ ?].
  - by eapply determine_torchvision_text.
  - by eapply determine_torchtext_text.
  - by eapply determine_torchaudio_text.
Qed.

(** C9 as the specification has it fails: on "torchvision torch" the rule
    of torch substitutes first, and the rule of torchvision then rewrites
    the substituted text. *)
Lemma C9_first_match_wins_counterexample :
  exists options,
    find_latest "2.1.0" = OK options /\
    rule ("torch" : str, "2.1.0" : str) "torchvision torch" =
      ("torchvision torch==2.1.0" : str) /\
    substitute options "torchvision torch" = ("torchvision==0.16.0" : str) /\
    ~ first_match_wins options "torchvision torch".
Proof.
  eexists. split; [by vm_compute |]. split; [by vm_compute |].
  split; [by vm_compute |].
  intros H.
  specialize (H [] ("torch" : str, "2.1.0" : str) _ eq_refl).
  assert (E : rule ("torch" : str, "2.1.0" : str)
                (substitute [] ("torchvision torch" : str)) <>
              substitute [] ("torchvision torch" : str)) by by vm_compute.
  apply H in E. by vm_compute in E.
Qed.

(** C9, amended.  The rules of the companions are applied one after the
    other, in the order of the map, each to the result of the one before,
    and none is skipped.  When the rules of all the other companions leave
    the requirement part as it is, exactly one substitution is applied: the
    result is that of the one remaining rule, and no other rule modifies
    it. *)
Theorem C9_one_rule_applies :
  forall (v : str) (options : list (str * str)),
    find_latest v = OK options ->
    (exists v0 v1 v2 v3 : str,
       options = [("torch" : str, v0); ("torchvision" : str, v1);
                  ("torchtext" : str, v2); ("torchaudio" : str, v3)] /\
       forall req,
         substitute options req =
         rule ("torchaudio" : str, v3)
           (rule ("torchtext" : str, v2)
              (rule ("torchvision" : str, v1)
                 (rule ("torch" : str, v0) req)))) /\
    forall (req : str) before item after,
      options = before ++ item :: after ->
      (forall item', item' ∈ before ++ after -> rule item' req = req) ->
      substitute options req = rule item req /\
      forall item', item' ∈ options -> rule item' (rule item req) = rule item req.
Proof.
  intros v options Ha%find_latest_aligned. split.
  - destruct Ha as (v0 & v1 & v2 & v3 & -> & _). by exists v0, v1, v2, v3.
  - intros req before item after Ho H.
    assert (E : substitute options req = rule item req).
    { apply (substitute_single options) with before after; [| done..].
      intros. by eapply aligned_keep. }
    split; [done |]. intros item' Hin. rewrite <- E.
    apply substitute_fixed; [| | done]; intros.
    + by eapply aligned_idem.
    + by eapply aligned_keep.
Qed.

Lemma C9_one_rule_applies_witness :
  substitute
    [("torch" : str, "1.10.0" : str); ("torchvision" : str, "0.11.1" : str);
     ("torchtext" : str, "0.11.0" : str); ("torchaudio" : str, "0.10.0" : str)]
    "torchvision >=0.13.0, <0.16.0" =
  rule ("torchvision" : str, "0.11.1" : str) "torchvision >=0.13.0, <0.16.0".
Proof.
  destruct (C9_one_rule_applies ("1.10.0" : str) _ eq_refl) as [_ H].
  refine (proj1 (H _ [("torch" : str, "1.10.0" : str)] _
                   [("torchtext" : str, "0.11.0" : str);
                    ("torchaudio" : str, "0.10.0" : str)] eq_refl _)).
  intros item' Hin.
  repeat (apply elem_of_cons in Hin as [-> | Hin]; [by vm_compute |]).
  by apply elem_of_nil in Hin.
Defined.

(** ** Stripping white space *)

Lemma take_drop_while (f : ascii -> bool) s :
  take_while f s ++ drop_while f s = s.
Proof.
  induction s as [| c s IH]; simpl; [done |].
  destruct (f c); simpl; by rewrite ?IH.
Qed.

Lemma drop_while_head (f : ascii -> bool) s c :
  head (drop_while f s) = Some c -> f c = false.
Proof.
  induction s as [| d s IH]; simpl; [done |].
  destruct (f d) eqn:E; [done |]. simpl. by intros [= <-].
Qed.

Lemma drop_while_id (f : ascii -> bool) s :
  (forall c, head s = Some c -> f c = false) -> drop_while f s = s.
Proof. destruct s as [| c s]; simpl; [done |]. intros H. by rewrite H. Qed.

Lemma drop_while_app_all (f : ascii -> bool) a b :
  Forall (fun c => f c = true) a -> drop_while f (a ++ b) = drop_while f b.
Proof. induction 1 as [| c a Hc _ IH]; simpl; [done |]. by rewrite Hc. Qed.

Lemma lstrip_starts s : starts_tight (lstrip s).
Proof. intros c. apply drop_while_head. Qed.

Lemma lstrip_id s : starts_tight s -> lstrip s = s.
Proof. apply drop_while_id. Qed.

Lemma rstrip_ends s : ends_tight (rstrip s).
Proof.
  intros c. unfold rstrip. rewrite last_reverse. apply drop_while_head.
Qed.

Lemma rstrip_id s : ends_tight s -> rstrip s = s.
Proof.
  intros H. unfold rstrip. rewrite drop_while_id, reverse_involutive; [done |].
  intros c. rewrite head_reverse. apply H.
Qed.

Lemma rstrip_prefix s :
  exists ws, s = rstrip s ++ ws /\ Forall (fun c => is_space c = true) ws.
Proof.
  exists (reverse (take_while is_space (reverse s))). split.
  - unfold rstrip. rewrite <- reverse_app, take_drop_while.
    by rewrite reverse_involutive.
  - apply Forall_reverse, take_while_Forall.
Qed.

Lemma rstrip_spaces r ws :
  ends_tight r -> Forall (fun c => is_space c = true) ws ->
  rstrip (r ++ ws) = r.
Proof.
  intros Hr Hws. unfold rstrip.
  rewrite reverse_app, drop_while_app_all by by apply Forall_reverse.
  by apply rstrip_id.
Qed.

Lemma rstrip_starts s : starts_tight s -> starts_tight (rstrip s).
Proof.
  intros H c Hc. destruct (rstrip_prefix s) as (ws & E & _).
  apply H. rewrite E. destruct (rstrip s); [done |]. done.
Qed.

Lemma strip_tight s : tight (strip s).
Proof.
  split; [apply rstrip_starts, lstrip_starts | apply rstrip_ends].
Qed.

Lemma strip_id s : tight s -> strip s = s.
Proof. intros [Hs He]. unfold strip. by rewrite lstrip_id, rstrip_id. Qed.

Lemma strip_strip s : strip (strip s) = strip s.
Proof. apply strip_id, strip_tight. Qed.

Lemma strip_spaces r ws :
  tight r -> r <> [] -> Forall (fun c => is_space c = true) ws ->
  strip (r ++ ws) = r.
Proof.
  intros [Hs He] Hne Hws. unfold strip. rewrite lstrip_id.
  - by apply rstrip_spaces.
  - intros c Hc. apply Hs. by destruct r.
Qed.

Lemma strip_nil s : strip s = [] -> starts_tight s -> s = [].
Proof.
  unfold strip. intros H Hs. rewrite lstrip_id in H by done.
  destruct (rstrip_prefix s) as (ws & E & Hws). rewrite H in E. simpl in E.
  subst ws. destruct s as [| c s]; [done |].
  apply Forall_cons in Hws as [Hc _]. rewrite Hs in Hc; done.
Qed.

(** ** Cutting at the first hash *)

Lemma split1_no_sep sep s : sep ∉ s -> split1 sep s = [s].
Proof.
  induction s as [| c s IH]; simpl; [done |].
  intros [Hc Hs]%not_elem_of_cons. rewrite decide_False by done.
  by rewrite IH.
Qed.

Lemma split1_app_sep sep a b :
  sep ∉ a -> split1 sep (a ++ sep :: b) = [a; b].
Proof.
  induction a as [| c a IH]; simpl.
  - intros _. by rewrite decide_True.
  - intros [Hc Ha]%not_elem_of_cons. rewrite decide_False by done.
    by rewrite IH.
Qed.

Lemma split1_cases (sep : ascii) (s : str) :
  sep ∉ s \/ exists a b, s = a ++ sep :: b /\ sep ∉ a.
Proof.
  induction s as [| c s IH]; [left; apply not_elem_of_nil |].
  destruct (decide (c = sep)) as [-> | Hc].
  - right. exists [], s. split; [done | apply not_elem_of_nil].
  - destruct IH as [Hs | (a & b & -> & Ha)].
    + left. by apply not_elem_of_cons.
    + right. exists (c :: a), b. split; [done |]. by apply not_elem_of_cons.
Qed.

(** ** What the substitution keeps of the requirement part *)

Lemma word_not_space c : is_word c = true -> is_space c = false.
Proof. destruct c as [[] [] [] [] [] [] [] []]; by vm_compute. Qed.

Lemma numdot_not_space c : is_numdot c = true -> is_space c = false.
Proof. destruct c as [[] [] [] [] [] [] [] []]; by vm_compute. Qed.

Lemma word_not_hash c : is_word c = true -> c <> hash.
Proof. by intros H ->. Qed.

Lemma numdot_not_hash c : is_numdot c = true -> c <> hash.
Proof. by intros H ->. Qed.

Lemma ends_tight_cons_inv c s : ends_tight (c :: s) -> ends_tight s.
Proof.
  intros H d Hd. apply H. rewrite last_cons. by rewrite Hd.
Qed.

Lemma ends_tight_app a b : ends_tight a -> ends_tight b -> ends_tight (a ++ b).
Proof.
  intros Ha Hb c. rewrite last_app. destruct (last b) eqn:E.
  - intros [= <-]. by apply Hb.
  - apply Ha.
Qed.

Section OneRule.

Variables lib repl : str.
Hypothesis repl_good : good_text repl.

Lemma re_sub_from_Forall (P : ascii -> Prop) st pw s :
  Forall P repl -> Forall P s -> Forall P (re_sub_from lib repl st pw s).
Proof.
  intros Hr Hs. revert st pw.
  induction Hs as [| c s Hc Hs IH]; intros st pw; simpl; [done |].
  assert (Forall P
    (if match_at lib pw (c :: s)
     then repl ++ re_sub_from lib repl (Matching (length lib - 1)) (is_word c) s
     else c :: re_sub_from lib repl Searching (is_word c) s)).
  { destruct (match_at lib pw (c :: s)).
    - apply Forall_app. auto.
    - constructor; auto. }
  destruct st as [| [| k]]; [done | | by apply IH].
  case_decide; [done | by apply IH].
Qed.

Lemma re_sub_from_nonempty pw s :
  s <> [] -> re_sub_from lib repl Searching pw s <> [].
Proof.
  destruct repl_good as (Hne & _).
  destruct s as [| c s]; [done |]. intros _. simpl.
  destruct (match_at lib pw (c :: s)); [| done]. by destruct repl.
Qed.

Lemma re_sub_from_ends st pw s :
  ends_tight s -> ends_tight (re_sub_from lib repl st pw s).
Proof.
  destruct repl_good as (Hne & [_ Hre] & _).
  revert st pw. induction s as [| c s IH]; intros st pw Hs; simpl; [done |].
  pose proof (ends_tight_cons_inv _ _ Hs) as Hs'.
  assert (ends_tight
    (if match_at lib pw (c :: s)
     then repl ++ re_sub_from lib repl (Matching (length lib - 1)) (is_word c) s
     else c :: re_sub_from lib repl Searching (is_word c) s)).
  { destruct (match_at lib pw (c :: s)).
    - apply ends_tight_app; auto.
    - intros d. rewrite last_cons.
      destruct (last (re_sub_from lib repl Searching (is_word c) s)) eqn:E.
      + intros [= <-]. by apply (IH Searching (is_word c)).
      + intros [= <-]. apply last_None in E.
        destruct s as [| c' s]; [by apply Hs |].
        by apply re_sub_from_nonempty in E. }
  destruct st as [| [| k]]; [done | | by apply IH].
  case_decide; [done | by apply IH].
Qed.

Lemma re_sub_good s : good_text s -> good_text (re_sub lib repl s).
Proof.
  intros (Hne & [Hs He] & Hh). unfold re_sub.
  split; [by apply re_sub_from_nonempty |]. split; [split |].
  - destruct repl_good as (Hrne & [Hrs _] & _).
    destruct s as [| c s]; [done |]. simpl.
    destruct (match_at lib false (c :: s)).
    + intros d Hd. apply Hrs. by destruct repl.
    + done.
  - by apply re_sub_from_ends.
  - destruct repl_good as (_ & _ & Hrh).
    apply Forall_not_elem_of, re_sub_from_Forall; by apply Forall_not_elem_of.
Qed.

End OneRule.

Lemma pin_good lib v :
  plain_name lib -> version_text v -> good_text (lib ++ "==" ++ v).
Proof.
  intros (Hne & Hw & _) [Hvne Hv]. split; [by destruct lib |].
  split; [split |].
  - destruct lib as [| a l]; [done |]. intros c [= <-].
    apply Forall_cons in Hw as [Ha _]. by apply word_not_space.
  - intros c. rewrite !last_app.
    destruct (last v) as [d |] eqn:E; [| by apply last_None in E].
    intros [= <-]. apply last_Some_elem_of in E.
    rewrite Forall_forall in Hv. by apply numdot_not_space, Hv.
  - apply Forall_not_elem_of, pin_Forall; [| done |].
    + eapply Forall_impl; [done |]. apply word_not_hash.
    + eapply Forall_impl; [done |]. apply numdot_not_hash.
Qed.

Lemma substitute_good options s :
  aligned options -> good_text s -> good_text (substitute options s).
Proof.
  intros Ha. assert (H : forall item, item ∈ options ->
    exists lib v, item = (lib, v) /\ plain_name lib /\ version_text v).
  { intros item Hin.
    destruct (aligned_elem _ _ Ha Hin) as (lib & v & -> & Hv & Hl & _).
    exists lib, v. split; [done |]. split; [by apply companion_plain | done]. }
  clear Ha. revert s. induction options as [| item options IH]; intros s Hs;
    [done |].
  rewrite substitute_cons. apply IH.
  - intros item' Hin. apply H. by right.
  - destruct (H item) as (lib & v & -> & Hl & Hv); [by left |].
    unfold rule. simpl. rewrite replacement_pin by apply Hv.
    apply re_sub_good; [by apply pin_good | done].
Qed.

(** ** One line, rewritten twice *)

Lemma drop_while_Forall (P : ascii -> Prop) (f : ascii -> bool) s :
  Forall P s -> Forall P (drop_while f s).
Proof.
  induction 1 as [| c s Hc Hs IH]; simpl; [done |].
  destruct (f c); [done | by constructor].
Qed.

Lemma strip_Forall (P : ascii -> Prop) s : Forall P s -> Forall P (strip s).
Proof.
  intros H. unfold strip, rstrip, lstrip.
  by apply Forall_reverse, drop_while_Forall, Forall_reverse, drop_while_Forall.
Qed.

Lemma adjusted_line_strip options line :
  adjusted_line options (strip line) = adjusted_line options line.
Proof. unfold adjusted_line. by rewrite strip_strip. Qed.

Lemma adjusted_line_plain options l :
  good_text l -> adjusted_line options l = substitute options l.
Proof.
  intros (Hne & Ht & Hh). unfold adjusted_line.
  rewrite (strip_id l), split1_no_sep by done. simpl.
  rewrite (strip_id l) by done. destruct l; [done |]. by rewrite app_nil_r.
Qed.

Lemma adjusted_line_comment options b :
  tight (hash :: b) -> adjusted_line options (hash :: b) = hash :: b.
Proof.
  intros Ht. unfold adjusted_line. rewrite (strip_id (hash :: b)) by done.
  simpl.
  change (strip (" " :: " " :: "#" :: b))%char with (rstrip (hash :: b)).
  apply rstrip_id, (proj2 Ht).
Qed.

Lemma adjusted_line_both options a b :
  tight (a ++ hash :: b) -> hash ∉ a -> strip a <> [] ->
  adjusted_line options (a ++ hash :: b) =
  substitute options (strip a) ++ "  #" ++ b.
Proof.
  intros Ht Ha Hne. unfold adjusted_line.
  rewrite (strip_id (a ++ hash :: b)), split1_app_sep by done. simpl.
  destruct (strip a) as [| c r] eqn:E; [done |]. f_equal.
  apply rstrip_id. intros d Hd. apply (proj2 Ht).
  rewrite last_app. simpl in Hd. rewrite !last_cons in Hd.
  rewrite last_cons. by destruct (last b).
Qed.

Lemma adjusted_line_tight_idem options l :
  aligned options -> tight l ->
  adjusted_line options (adjusted_line options l) = adjusted_line options l.
Proof.
  intros Ha Ht.
  assert (Hidem : forall r, good_text r ->
    adjusted_line options (substitute options r) = substitute options r).
  { intros r Hr. rewrite adjusted_line_plain by by apply substitute_good.
    apply substitute_idem; intros.
    - by eapply aligned_idem.
    - by eapply aligned_keep. }
  destruct (split1_cases hash l) as [Hh | (a & b & -> & Hh)].
  - destruct (decide (l = [])) as [-> | Hne]; [done |].
    rewrite (adjusted_line_plain options l) by done. by apply Hidem.
  - destruct (decide (strip a = [])) as [Hs | Hs].
    + apply strip_nil in Hs as ->.
      * simpl. by rewrite !adjusted_line_comment.
      * intros c Hc. apply (proj1 Ht). by destruct a.
    + rewrite (adjusted_line_both options a b) by done.
      assert (Hq : good_text (strip a)).
      { split; [done |]. split; [apply strip_tight |].
        by apply Forall_not_elem_of, strip_Forall, Forall_not_elem_of. }
      assert (Hr : good_text (substitute options (strip a)))
        by by apply substitute_good.
      set (r := substitute options (strip a)) in *.
      destruct Hr as (Hrne & Hrt & Hrh).
      assert (Esp : strip (r ++ "  ") = r).
      { apply strip_spaces; [done | done | by repeat constructor]. }
      change (r ++ "  #" ++ b) with (r ++ ("  " : str) ++ hash :: b).
      rewrite app_assoc, adjusted_line_both.
      * rewrite Esp. fold r. rewrite <- app_assoc. f_equal.
        rewrite <- (adjusted_line_plain options r) by done.
        unfold r. by apply Hidem.
      * split.
        -- intros c Hc. apply (proj1 Hrt). by destruct r.
        -- intros c Hc. apply (proj2 Ht). rewrite last_app in Hc |- *.
           rewrite last_cons in Hc |- *. by destruct (last b).
      * apply not_elem_of_app. split; [done |].
        apply Forall_not_elem_of. by repeat constructor.
      * by rewrite Esp.
Qed.

Lemma adjusted_line_idem options line :
  aligned options ->
  adjusted_line options (adjusted_line options line) =
  adjusted_line options line.
Proof.
  intros Ha. rewrite <- (adjusted_line_strip options line).
  apply adjusted_line_tight_idem; [done | apply strip_tight].
Qed.

(** ** Lines without a whole-token occurrence *)

Lemma space_not_name_char c : is_space c = true -> is_name_char c = false.
Proof. destruct c as [[] [] [] [] [] [] [] []]; by vm_compute. Qed.

Lemma strip_infix s :
  exists w1 w2,
    s = w1 ++ strip s ++ w2 /\ Forall (fun c => is_space c = true) w2.
Proof.
  destruct (rstrip_prefix (lstrip s)) as (w2 & E & Hw2).
  exists (take_while is_space s), w2. split; [| done].
  unfold strip. rewrite <- E. unfold lstrip. by rewrite take_drop_while.
Qed.

Lemma requirement_part_infix line :
  exists pre post,
    line = pre ++ requirement_part line ++ post /\
    forall c, head post = Some c -> is_name_char c = false.
Proof.
  unfold requirement_part.
  destruct (strip_infix line) as (w1 & w2 & E1 & Hw2).
  destruct (split1_cases hash (strip line)) as [Hh | (a & b & Ea & Hh)].
  - rewrite split1_no_sep by done. simpl. rewrite strip_strip.
    exists w1, w2. split; [done |]. intros c Hc.
    destruct w2 as [| d w2]; [done |]. injection Hc as ->.
    apply Forall_cons in Hw2 as [Hd _]. by apply space_not_name_char.
  - rewrite Ea, split1_app_sep by done. simpl.
    destruct (strip_infix a) as (w3 & w4 & E3 & Hw4).
    exists (w1 ++ w3), (w4 ++ hash :: b ++ w2). split.
    + rewrite E1 at 1. rewrite Ea. rewrite E3 at 1.
      by rewrite <- !app_assoc.
    + intros c Hc. destruct w4 as [| d w4].
      * by injection Hc as <-.
      * injection Hc as ->. apply Forall_cons in Hw4 as [Hd _].
        by apply space_not_name_char.
Qed.

Lemma occurs_at_infix lib pre req post p :
  occurs_at lib req p -> occurs_at lib (pre ++ req ++ post) (length pre + p).
Proof.
  unfold occurs_at. intros H.
  rewrite drop_app_add, drop_app. by apply prefix_app_r.
Qed.

Lemma extended_at_infix lib pre req post p :
  lib <> [] ->
  (forall c, head post = Some c -> is_name_char c = false) ->
  occurs_at lib req p ->
  extended_at lib (pre ++ req ++ post) (length pre + p) ->
  extended_at lib req p.
Proof.
  unfold occurs_at, extended_at. intros Hne Hpost Ho (c & Hc & Hname).
  exists c. split; [| done].
  apply prefix_length in Ho. rewrite length_drop in Ho.
  assert (0 < length lib) by (destruct lib; [done | simpl; lia]).
  rewrite <- Nat.add_assoc, lookup_app_r in Hc by lia.
  replace (length pre + (p + length lib) - length pre)
    with (p + length lib) in Hc by lia.
  rewrite lookup_app in Hc.
  destruct (req !! (p + length lib)) as [d |] eqn:E; [done |].
  apply lookup_ge_None in E.
  replace (p + length lib - length req) with 0 in Hc by lia.
  rewrite <- head_lookup in Hc. apply Hpost in Hc. congruence.
Qed.

Lemma adjusted_line_unchanged options line :
  substitute options (requirement_part line) = requirement_part line ->
  adjusted_line options line = adjusted_line [] line.
Proof.
  unfold adjusted_line. fold (requirement_part line).
  by intros ->.
Qed.

Lemma adjusted_line_extended options line :
  aligned options ->
  (forall lib version p,
     (lib, version) ∈ options ->
     occurs_at lib line p -> extended_at lib line p) ->
  adjusted_line options line = adjusted_line [] line.
Proof.
  intros Ha H. apply adjusted_line_unchanged, substitute_extended.
  intros lib version p Hin Ho.
  destruct (requirement_part_infix line) as (pre & post & E & Hpost).
  destruct (aligned_elem _ _ Ha Hin) as (lib' & v' & [= <- <-] & _ & Hl & _).
  apply companion_plain in Hl as (Hne & _).
  apply (extended_at_infix lib pre _ post); [done.. |].
  rewrite <- E. apply (H lib version); [done |].
  rewrite E at 1. by apply occurs_at_infix.
Qed.

(** C3.  An occurrence of a companion name that is followed at once by an
    identifier character, a hyphen or an underscore never triggers the
    substitution for that name: a substitution happens only where the name
    is followed by another character or by the end of the text.  A
    requirement for a package whose name extends a companion name, as
    torchvision extends torch, is not rewritten by the rule of the shorter
    name; lines in which every occurrence of a companion name is so
    extended leave [adjust] with the requirement part as it was. *)
Theorem C3_whole_token_matching :
  (forall (lib : str) (pw : bool) (c : ascii) (rest : str),
     is_name_char c = true -> match_at lib pw (lib ++ c :: rest) = false) /\
  (forall lib repl s : str,
     (forall p, occurs_at lib s p -> extended_at lib s p) ->
     re_sub lib repl s = s) /\
  (forall lib repl s : str,
     re_sub lib repl s <> s ->
     exists p, occurs_at lib s p /\ ~ extended_at lib s p) /\
  (forall (options : list (str * str)) (req : str),
     (forall lib version p,
        (lib, version) ∈ options ->
        occurs_at lib req p -> extended_at lib req p) ->
     substitute options req = req) /\
  (forall (env : option str) (v : str) (options : list (str * str))
          (requires : list str),
     find_latest v = OK options ->
     (forall line lib version p,
        line ∈ requires -> (lib, version) ∈ options ->
        occurs_at lib line p -> extended_at lib line p) ->
     adjust env requires (Some v) = OK (adjusted_line [] <$> requires)) /\
  re_sub "torch" "torch==2.1.0" "torchvision>=0.10.0" =
    ("torchvision>=0.10.0" : str) /\
  adjust None
    ["torchxyz>=1.0" : str; "torch-foo <2" : str; "torch_bar==1  # c" : str;
     "torchvision2" : str; "pytorch" : str]
    (Some ("2.1.0" : str)) =
  OK ["torchxyz>=1.0" : str; "torch-foo <2" : str; "torch_bar==1  # c" : str;
      "torchvision2" : str; "pytorch" : str].
Proof.
  split; [exact match_at_extended |].
  split; [exact re_sub_extended |].
  split; [| split; [exact substitute_extended | split; [| by vm_compute]]].
  - intros lib repl s H.
    apply re_sub_from_changed in H as (p & pw & H).
    exists p. by apply match_at_occurs in H.
  - intros env v options requires Hv H.
    rewrite (adjust_map env requires v options Hv). f_equal.
    apply Forall_fmap_ext, Forall_forall. intros line Hin.
    apply adjusted_line_extended; [by eapply find_latest_aligned |].
    intros lib version p. by apply H.
Qed.

Lemma C3_whole_token_matching_witness :
  re_sub "torchtext" "torchtext==0.16.0" "torchtext-x" =
    ("torchtext-x" : str).
Proof.
  destruct C3_whole_token_matching as (_ & H & _). apply H.
  intros p [k Hk]. unfold extended_at.
  do 12 (destruct p as [| p];
         [simpl in Hk;
          first [discriminate Hk
                | eexists; split; [reflexivity | reflexivity]] |]).
  simpl in Hk. discriminate Hk.
Defined.

(** C5.  Rewriting is idempotent: for every list of lines and every
    primary version that the resolver accepts, rewriting the result of
    [adjust] again with the same version gives the same lines; each line of
    a first rewrite is a fixed point of the second. *)
Theorem C5_rewrite_idempotent :
  forall (env : option str) (v : str) (options : list (str * str))
         (requires : list str),
    find_latest v = OK options ->
    exists out,
      adjust env requires (Some v) = OK out /\
      adjust env out (Some v) = OK out /\
      forall line, line ∈ out -> adjust env [line] (Some v) = OK [line].
Proof.
  intros env v options requires H.
  pose proof (find_latest_aligned _ _ H) as Ha.
  exists (adjusted_line options <$> requires).
  split; [by apply adjust_map |]. split.
  - rewrite (adjust_map env _ v options H), <- list_fmap_compose. f_equal.
    apply list_fmap_ext. intros _ line _. simpl.
    by apply adjusted_line_idem.
  - intros line (req & -> & _)%list_elem_of_fmap.
    rewrite (adjust_map env _ v options H). simpl.
    by rewrite adjusted_line_idem.
Qed.

Lemma C5_rewrite_idempotent_witness :
  exists out,
    adjust None
      ["  torchvision >=0.13.0, <0.16.0  # sample # comment" : str;
       "torch" : str; "#  only a comment  " : str; "numpy # torch" : str]
      (Some ("1.10.0" : str)) = OK out /\
    adjust None out (Some ("1.10.0" : str)) = OK out /\
    forall line,
      line ∈ out -> adjust None [line] (Some ("1.10.0" : str)) = OK [line].
Proof.
  eapply (C5_rewrite_idempotent None ("1.10.0" : str)). by vm_compute.
Defined.

(** * The examples of the docstrings and of the test *)

(** The character classes, as the code points they hold. *)
Example word_code_points :
  filter (fun n => is_word (ascii_of_nat n) = true) (seq 0 256) =
  seq 48 10 ++ seq 65 26 ++ [95] ++ seq 97 26 ++
  [170; 178; 179; 181; 185; 186; 188; 189; 190] ++
  seq 192 23 ++ seq 216 31 ++ seq 248 8.
Proof. by vm_compute. Qed.

Example space_code_points :
  filter (fun n => is_space (ascii_of_nat n) = true) (seq 0 256) =
  [9; 10; 11; 12; 13; 28; 29; 30; 31; 32; 133; 160].
Proof. by vm_compute. Qed.

Example doctest_determine_torchaudio :
  _determine_torchaudio "1.9.0" = OK ("0.9.0" : str) /\
  _determine_torchaudio "2.4.1" = OK ("2.4.1" : str) /\
  _determine_torchaudio "1.8.2" = OK ("0.9.1" : str).
Proof. by vm_compute. Qed.

Example doctest_determine_torchtext :
  _determine_torchtext "1.9.0" = OK ("0.10.0" : str) /\
  _determine_torchtext "2.4.1" = OK ("0.18.0" : str) /\
  _determine_torchtext "1.8.2" = OK ("0.9.1" : str).
Proof. by vm_compute. Qed.

Example doctest_determine_torchvision :
  _determine_torchvision "1.9.0" = OK ("0.10.0" : str) /\
  _determine_torchvision "2.4.1" = OK ("0.19.1" : str) /\
  _determine_torchvision "2.0.1" = OK ("0.15.2" : str).
Proof. by vm_compute. Qed.

Example doctest_find_latest :
  find_latest "2.1.0" =
    OK [("torch" : str, "2.1.0" : str); ("torchvision" : str, "0.16.0" : str);
        ("torchtext" : str, "0.16.0" : str);
        ("torchaudio" : str, "2.1.0" : str)].
Proof. by vm_compute. Qed.

Example doctest_adjust :
  adjust None
    ["torch>=1.9.0" : str; "torchvision>=0.10.0" : str;
     "torchtext>=0.10.0" : str; "torchaudio>=0.9.0" : str]
    (Some ("2.1.0" : str)) =
  OK ["torch==2.1.0" : str; "torchvision==0.16.0" : str;
      "torchtext==0.16.0" : str; "torchaudio==2.1.0" : str].
Proof. by vm_compute. Qed.

(** The lines of the sample file, as [readlines] gives them. *)
Example test_adjust_torch_versions_call :
  adjust None
    ((fun l : string => l ++ [newline]) <$>
       [""; "# This is sample requirements file";
        "#  with multi line comments"; "";
        "torchvision >=0.13.0, <0.16.0  # sample # comment";
        "gym[classic_control] >=0.17.0, <0.27.0";
        "ipython[all] <8.15.0  # strict";
        "torchmetrics >=0.10.0, <1.3.0";
        "lightning-utilities >=0.8.0, <0.10.0"; ""])
    (Some ("1.10.0" : str)) =
  OK (list_ascii_of_string <$>
       [""; "# This is sample requirements file";
        "#  with multi line comments"; "";
        "torchvision==0.11.1  # sample # comment";
        "gym[classic_control] >=0.17.0, <0.27.0";
        "ipython[all] <8.15.0  # strict";
        "torchmetrics >=0.10.0, <1.3.0";
        "lightning-utilities >=0.8.0, <0.10.0"; ""]).
Proof. by vm_compute. Qed.

(** * Further properties of the version mapper *)

Lemma determine_supported v ma mi pa :
  is_version v ma mi pa -> (ma = 1 \/ ma = 2)%N ->
  (exists r, _determine_torchvision v = OK r) /\
  (exists r, _determine_torchtext v = OK r) /\
  (exists r, _determine_torchaudio v = OK r).
Proof.
  intros Hv Hma.
  destruct (determine_unfold v v) as (-> & -> & ->).
  { eauto using re_search_numdot_self, is_version_nonempty, is_version_numdot. }
  apply unpack3_version in Hv.
  unfold torchvision.fallback, torchtext.fallback, torchaudio.fallback.
  rewrite Hv. simpl.
  destruct (torchvision._VERSION_EXCEPTIONS !! v),
    (torchtext._VERSION_EXCEPTIONS !! v),
    (torchaudio._VERSION_EXCEPTIONS !! v).
  all: destruct Hma as [-> | ->]; simpl; try destruct (3 <=? mi)%N; simpl.
  all: repeat split; by eexists.
Qed.

Lemma determine_torchvision_version s r :
  _determine_torchvision s = OK r ->
  exists run ma mi pa,
    re_search_numdot s = Some run /\ is_version run ma mi pa /\
    (ma = 1 \/ ma = 2)%N.
Proof.
  unfold _determine_torchvision, semantic_version.
  destruct (re_search_numdot s) as [run |]; [| done]. simpl.
  destruct (torchvision._VERSION_EXCEPTIONS !! run) as [v |] eqn:E.
  - intros _. apply torchvision_pin in E as (ma & mi & pa & E & Hma).
    exists run, ma, mi, pa. split; [done |].
    split; [by apply version_unpack3 | lia].
  - unfold torchvision.fallback.
    destruct (unpack3 (split dot run)) as [[[ma mi] pa] |] eqn:Eu; [| done].
    simpl. intros H. exists run, ma, mi, pa. split; [done |].
    split; [by apply version_unpack3 |].
    destruct (ma =? 1)%N eqn:E1; [apply N.eqb_eq in E1; by left |].
    destruct (ma =? 2)%N eqn:E2; [apply N.eqb_eq in E2; by right | done].
Qed.

Lemma pin_value k v :
  torchvision._VERSION_EXCEPTIONS !! k = Some v ->
  exists mi pa, is_version v 0 mi pa.
Proof.
  intros H.
  assert (exists mi pa, unpack3 (split dot v) = OK (0%N, mi, pa))
    as (mi & pa & E).
  { apply elem_of_list_to_map_2 in H.
    repeat (apply elem_of_cons in H as [H | H];
            [injection H as -> ->; vm_compute; eauto |]).
    by apply elem_of_nil in H. }
  exists mi, pa. by apply version_unpack3.
Qed.

Lemma determine_torchvision_major s r :
  _determine_torchvision s = OK r -> exists mi pa, is_version r 0 mi pa.
Proof.
  unfold _determine_torchvision, semantic_version.
  destruct (re_search_numdot s) as [run |]; [| done]. simpl.
  destruct (torchvision._VERSION_EXCEPTIONS !! run) as [v |] eqn:E.
  - intros [= <-]. by eapply pin_value.
  - unfold torchvision.fallback.
    destruct (unpack3 (split dot run)) as [[[ma mi] pa] |]; [| done]. simpl.
    destruct (ma =? 1)%N; [| destruct (ma =? 2)%N]; simpl; try done.
    all: intros [= <-]; eexists _, _; apply render_is_version.
Qed.

Lemma determine_torchtext_major s r :
  _determine_torchtext s = OK r -> exists mi pa, is_version r 0 mi pa.
Proof.
  unfold _determine_torchtext, semantic_version.
  destruct (re_search_numdot s) as [run |]; [| done]. simpl.
  destruct (torchtext._VERSION_EXCEPTIONS !! run) as [v |] eqn:E.
  - intros [= <-]. by eapply pin_value, torchtext_pin.
  - unfold torchtext.fallback.
    destruct (unpack3 (split dot run)) as [[[ma mi] pa] |]; [| done]. simpl.
    destruct (ma =? 1)%N; [| destruct (ma =? 2)%N; [destruct (3 <=? mi)%N |]];
      simpl; try done.
    all: intros [= <-]; eexists _, _; apply render_is_version.
Qed.

Lemma determine_torchaudio_major s r :
  _determine_torchaudio s = OK r ->
  exists ma mi pa, is_version r ma mi pa /\ ma <> 1%N.
Proof.
  unfold _determine_torchaudio, semantic_version.
  destruct (re_search_numdot s) as [run |]; [| done]. simpl.
  destruct (torchaudio._VERSION_EXCEPTIONS !! run) as [v |] eqn:E.
  - intros [= <-]. apply torchaudio_pin, pin_value in E as (mi & pa & E).
    by exists 0%N, mi, pa.
  - unfold torchaudio.fallback.
    destruct (unpack3 (split dot run)) as [[[ma mi] pa] |]; [| done]. simpl.
    destruct (ma =? 1)%N eqn:E1; simpl; intros [= <-].
    + exists 0%N, mi, pa. split; [apply render_is_version | done].
    + exists ma, mi, pa. split; [apply render_is_version |].
      by apply N.eqb_neq.
Qed.

(** X1.  The rules of era 1: for a primary version 1.minor.patch that a
    table does not pin, torchaudio is 0.minor.patch, and torchtext and
    torchvision are 0.(minor+1).patch. *)
Theorem X1_era1_rules :
  forall (s run : str) (mi pa : N),
    re_search_numdot s = Some run -> is_version run 1 mi pa ->
    (torchaudio._VERSION_EXCEPTIONS !! run = None ->
     _determine_torchaudio s = OK (render [0; mi; pa]%N)) /\
    (torchtext._VERSION_EXCEPTIONS !! run = None ->
     _determine_torchtext s = OK (render [0; mi + 1; pa]%N)) /\
    (torchvision._VERSION_EXCEPTIONS !! run = None ->
     _determine_torchvision s = OK (render [0; mi + 1; pa]%N)).
Proof.
  intros s run mi pa Hrun Hv%unpack3_version.
  destruct (determine_unfold s run Hrun) as (-> & -> & ->).
  unfold torchvision.fallback, torchtext.fallback, torchaudio.fallback.
  rewrite Hv. simpl. by repeat split; intros ->.
Qed.

Lemma X1_era1_rules_witness :
  _determine_torchaudio "1.13.1+cpu" = OK ("0.13.1" : str) /\
  _determine_torchtext "1.13.1+cpu" = OK ("0.14.1" : str) /\
  _determine_torchvision "1.13.1+cpu" = OK ("0.14.1" : str).
Proof.
  destruct (X1_era1_rules ("1.13.1+cpu" : str) ("1.13.1" : str) 13%N 1%N)
    as (Ha & Ht & Hv).
  - reflexivity.
  - exists ("1" : str), ("13" : str), ("1" : str). by vm_compute.
  - split; [apply Ha | split; [apply Ht | apply Hv]]; by vm_compute.
Defined.

(** X2.  Below the plateau of era 2 (major 2, minor under 3) torchtext
    follows torchvision: for a version that their tables do not pin, both
    are 0.(minor+15).patch. *)
Theorem X2_era2_below_plateau :
  forall (s run : str) (mi pa : N),
    re_search_numdot s = Some run -> is_version run 2 mi pa -> (mi < 3)%N ->
    torchtext._VERSION_EXCEPTIONS !! run = None ->
    torchvision._VERSION_EXCEPTIONS !! run = None ->
    _determine_torchtext s = OK (render [0; mi + 15; pa]%N) /\
    _determine_torchvision s = _determine_torchtext s.
Proof.
  intros s run mi pa Hrun Hv Hmi Et Ev.
  destruct (determine_unfold s run Hrun) as (-> & -> & _).
  destruct (fallbacks_era2 s run mi pa Hv) as (-> & -> & _).
  rewrite Et, Ev. apply N.leb_gt in Hmi. by rewrite Hmi.
Qed.

Lemma X2_era2_below_plateau_witness :
  _determine_torchtext "2.2.1" = OK ("0.17.1" : str) /\
  _determine_torchvision "2.2.1" = _determine_torchtext "2.2.1".
Proof.
  apply (X2_era2_below_plateau ("2.2.1" : str) ("2.2.1" : str) 2%N 1%N).
  - reflexivity.
  - exists ("2" : str), ("2" : str), ("1" : str). by vm_compute.
  - lia.
  - by vm_compute.
  - by vm_compute.
Defined.

Lemma find_latest_domain s :
  (exists options, find_latest s = OK options) <->
  (exists run ma mi pa,
     re_search_numdot s = Some run /\
     is_version (drop_trailing_dot run) ma mi pa /\ (ma = 1 \/ ma = 2)%N).
Proof.
  split.
  - intros [options H]. unfold find_latest, semantic_version in H.
    destruct (re_search_numdot s) as [run |] eqn:Erun; [| done]. simpl in H.
    destruct (_determine_torchvision _) as [tv |] eqn:Ev; [| done].
    apply determine_torchvision_version in Ev
      as (run' & ma & mi & pa & Hrun' & Hv & Hma).
    exists run, ma, mi, pa. split; [done |]. split; [| done].
    apply re_search_numdot_Some in Erun as [_ Hnd].
    apply drop_trailing_dot_numdot in Hnd.
    rewrite re_search_numdot_self in Hrun'; [by injection Hrun' as -> | | done].
    intros E. by rewrite E in Hrun'.
  - intros (run & ma & mi & pa & Hrun & Hv & Hma).
    rewrite (find_latest_unfold s run Hrun). simpl.
    destruct (determine_supported _ _ _ _ Hv Hma)
      as ([tv ->] & [tt ->] & [ta ->]).
    by eexists.
Qed.

(** X3.  The resolver accepts exactly the texts whose first run of digits
    and dots, without a trailing dot, is a version of major 1 or 2. *)
Theorem X3_resolver_domain :
  forall s : str,
    (exists options, find_latest s = OK options) <->
    (exists run ma mi pa,
       re_search_numdot s = Some run /\
       is_version (drop_trailing_dot run) ma mi pa /\ (ma = 1 \/ ma = 2)%N).
Proof. exact find_latest_domain. Qed.

Lemma X3_resolver_domain_witness :
  exists options, find_latest "torch-1.12.0.dev20220518" = OK options.
Proof.
  apply (proj2 (X3_resolver_domain ("torch-1.12.0.dev20220518" : str))).
  exists ("1.12.0." : str), 1%N, 12%N, 0%N. split; [reflexivity |].
  split; [| by left].
  exists ("1" : str), ("12" : str), ("0" : str). by vm_compute.
Defined.

(** X4.  Every alignment that the resolver returns has the four keys torch,
    torchvision, torchtext and torchaudio in this order; the torch entry is
    a version of major 1 or 2, the torchvision and torchtext entries are
    versions of major 0, and the torchaudio entry is a version whose major
    is never 1. *)
Theorem X4_alignment_shape :
  forall (s : str) (options : list (str * str)),
    find_latest s = OK options ->
    exists ver tv tt ta : str,
      options = [("torch" : str, ver); ("torchvision" : str, tv);
                 ("torchtext" : str, tt); ("torchaudio" : str, ta)] /\
      (exists ma mi pa, is_version ver ma mi pa /\ (ma = 1 \/ ma = 2)%N) /\
      (exists mi pa, is_version tv 0 mi pa) /\
      (exists mi pa, is_version tt 0 mi pa) /\
      (exists ma mi pa, is_version ta ma mi pa /\ ma <> 1%N).
Proof.
  intros s options H.
  destruct (proj1 (find_latest_domain s) (ex_intro _ options H))
    as (run & ma & mi & pa & Hrun & Hv & Hma).
  rewrite (find_latest_unfold s run Hrun) in H. simpl in H.
  destruct (_determine_torchvision _) as [tv |] eqn:Ev; [| done].
  destruct (_determine_torchtext _) as [tt |] eqn:Et; [| done].
  destruct (_determine_torchaudio _) as [ta |] eqn:Ea; [| done].
  simpl in H. injection H as <-.
  exists (drop_trailing_dot run), tv, tt, ta. split; [done |].
  split; [by exists ma, mi, pa |].
  split; [by eapply determine_torchvision_major |].
  split; [by eapply determine_torchtext_major |].
  by eapply determine_torchaudio_major.
Qed.

Lemma X4_alignment_shape_witness :
  exists ver tv tt ta : str,
    [("torch" : str, "2.0.1" : str); ("torchvision" : str, "0.15.2" : str);
     ("torchtext" : str, "0.15.2" : str); ("torchaudio" : str, "2.0.1" : str)]
    = [("torch" : str, ver); ("torchvision" : str, tv);
       ("torchtext" : str, tt); ("torchaudio" : str, ta)] /\
    (exists ma mi pa, is_version ver ma mi pa /\ (ma = 1 \/ ma = 2)%N) /\
    (exists mi pa, is_version tv 0 mi pa) /\
    (exists mi pa, is_version tt 0 mi pa) /\
    (exists ma mi pa, is_version ta ma mi pa /\ ma <> 1%N).
Proof.
  apply (X4_alignment_shape ("2.0.1rc3" : str)). by vm_compute.
Defined.


Lemma take_while_app_all (f : ascii -> bool) a b :
  Forall (fun c => f c = true) a ->
  take_while f (a ++ b) = a ++ take_while f b.
Proof. induction 1 as [| c a Hc _ IH]; simpl; [done |]. by rewrite Hc, IH. Qed.

Lemma take_while_head (f : ascii -> bool) s :
  (forall c, head s = Some c -> f c = false) -> take_while f s = [].
Proof. destruct s as [| c s]; simpl; [done |]. intros H. by rewrite H. Qed.

Lemma re_search_numdot_embedded pre v suf :
  Forall (fun c => is_numdot c = false) pre ->
  v <> [] -> Forall (fun c => is_numdot c = true) v ->
  re_search_numdot (pre ++ v ++ suf) = Some (v ++ take_while is_numdot suf).
Proof.
  intros Hpre Hne Hv. unfold re_search_numdot.
  rewrite drop_while_app_all by (eapply Forall_impl; [done |]; by intros c ->).
  rewrite drop_while_id.
  - rewrite take_while_app_all by done. by destruct v.
  - intros c Hc. destruct v as [| d v]; [done |]. injection Hc as ->.
    apply Forall_cons in Hv as [-> _]. done.
Qed.

(** X5.  The resolver looks at the first run of digits and dots only: text
    before the version that holds no digit and no dot, and a suffix that
    starts with another character, or with one dot and then another
    character (as in ".dev20210504"), do not change the result. *)
Theorem X5_suffix_ignored :
  forall (pre v suf : str) (ma mi pa : N),
    is_version v ma mi pa ->
    Forall (fun c => is_numdot c = false) pre ->
    ((forall c, head suf = Some c -> is_numdot c = false) \/
     exists r, suf = dot :: r /\ forall c, head r = Some c -> is_numdot c = false) ->
    find_latest (pre ++ v ++ suf) = find_latest v.
Proof.
  intros pre v suf ma mi pa Hv Hpre Hsuf.
  pose proof (is_version_nonempty _ _ _ _ Hv) as Hne.
  pose proof (is_version_numdot _ _ _ _ Hv) as Hnd.
  rewrite (find_latest_unfold _ _ (re_search_numdot_embedded pre v suf Hpre Hne Hnd)).
  rewrite (find_latest_version v ma mi pa Hv). simpl.
  assert (E : drop_trailing_dot (v ++ take_while is_numdot suf) = v);
    [| by rewrite E].
  destruct Hsuf as [Hsuf | (r & -> & Hr)].
  - rewrite take_while_head, app_nil_r by done.
    by eapply drop_trailing_dot_version.
  - simpl. rewrite take_while_head by done.
    unfold drop_trailing_dot. rewrite last_snoc, decide_True by done.
    apply removelast_last.
Qed.

Lemma X5_suffix_ignored_witness :
  find_latest "v1.9.0.dev20210504" = find_latest "1.9.0".
Proof.
  apply (X5_suffix_ignored ("v" : str) ("1.9.0" : str) (".dev20210504" : str)
           1%N 9%N 0%N).
  - exists ("1" : str), ("9" : str), ("0" : str). by vm_compute.
  - by repeat constructor.
  - right. exists ("dev20210504" : str). split; [done |]. by intros c [= <-].
Defined.

(** X6.  The torch entry of an alignment is the version in normal form:
    the resolver maps it to the same alignment again. *)
Theorem X6_torch_entry_resolves :
  forall (s : str) (options : list (str * str)),
    find_latest s = OK options ->
    exists ver rest,
      options = ("torch" : str, ver) :: rest /\ find_latest ver = OK options.
Proof.
  intros s options H.
  destruct (proj1 (find_latest_domain s) (ex_intro _ options H))
    as (run & ma & mi & pa & Hrun & Hv & _).
  rewrite (find_latest_unfold s run Hrun) in H. simpl in H.
  destruct (_determine_torchvision _) as [tv |] eqn:Ev; [| done].
  destruct (_determine_torchtext _) as [tt |] eqn:Et; [| done].
  destruct (_determine_torchaudio _) as [ta |] eqn:Ea; [| done].
  simpl in H. injection H as <-.
  eexists (drop_trailing_dot run), _. split; [done |].
  rewrite (find_latest_version _ _ _ _ Hv), Ev. simpl. rewrite Et. simpl.
  by rewrite Ea.
Qed.

Lemma X6_torch_entry_resolves_witness :
  exists ver rest,
    [("torch" : str, "1.8.2" : str); ("torchvision" : str, "0.9.1" : str);
     ("torchtext" : str, "0.9.1" : str); ("torchaudio" : str, "0.9.1" : str)]
    = ("torch" : str, ver) :: rest /\
    find_latest ver =
    OK [("torch" : str, "1.8.2" : str); ("torchvision" : str, "0.9.1" : str);
        ("torchtext" : str, "0.9.1" : str); ("torchaudio" : str, "0.9.1" : str)].
Proof.
  apply (X6_torch_entry_resolves ("torch==1.8.2." : str)). by vm_compute.
Defined.

(** X7.  The resolver fails in two ways only: with an error of the parse,
    or, for a version whose major is neither 1 nor 2, with the error that
    names the version in normal form. *)
Theorem X7_resolver_errors :
  forall (s : str) (e : exn),
    find_latest s = Raise e ->
    parse_error e \/
    exists run ma mi pa,
      re_search_numdot s = Some run /\
      is_version (drop_trailing_dot run) ma mi pa /\
      ma <> 1%N /\ ma <> 2%N /\
      e = ValueError ("Invalid torch version: " ++ drop_trailing_dot run).
Proof.
  intros s e H. unfold find_latest, semantic_version in H.
  destruct (re_search_numdot s) as [run |] eqn:Erun;
    [| injection H as <-; left; by left].
  simpl in H. set (ver := drop_trailing_dot run) in *.
  destruct (_determine_torchvision ver) as [tv |] eqn:Ev.
  { exfalso. apply determine_torchvision_version in Ev
      as (run' & ma & mi & pa & Hrun' & Hv & Hma).
    apply re_search_numdot_Some in Erun as [_ Hnd].
    apply drop_trailing_dot_numdot in Hnd. fold ver in Hnd.
    rewrite re_search_numdot_self in Hrun';
      [injection Hrun' as <- | by intros E; rewrite E in Hrun' | done].
    destruct (determine_supported _ _ _ _ Hv Hma)
      as (_ & [tt Et] & [ta Ea]).
    simpl in H. rewrite Et in H. simpl in H. by rewrite Ea in H. }
  simpl in H. injection H as ->.
  unfold _determine_torchvision, semantic_version in Ev.
  destruct (re_search_numdot ver) as [run' |] eqn:Erun';
    [| injection Ev as <-; left; by left].
  apply re_search_numdot_Some in Erun as [_ Hnd].
  apply drop_trailing_dot_numdot in Hnd. fold ver in Hnd.
  rewrite re_search_numdot_self in Erun';
    [injection Erun' as <- | by intros E; rewrite E in Erun' | done].
  simpl in Ev.
  destruct (torchvision._VERSION_EXCEPTIONS !! ver); [done |].
  unfold torchvision.fallback in Ev.
  destruct (unpack3 (split dot ver)) as [[[ma mi] pa] | e'] eqn:Eu.
  - simpl in Ev. right. exists run, ma, mi, pa.
    apply version_unpack3 in Eu.
    destruct (ma =? 1)%N eqn:E1; [done |].
    destruct (ma =? 2)%N eqn:E2; [done |].
    simpl in Ev. injection Ev as <-.
    apply N.eqb_neq in E1, E2. done.
  - simpl in Ev. injection Ev as <-. left. by apply unpack3_Raise in Eu.
Qed.

Lemma X7_resolver_errors_witness :
  parse_error (ValueError ("Invalid torch version: 0.4.1" : str)) \/
  exists run ma mi pa,
    re_search_numdot "0.4.1.post2" = Some run /\
    is_version (drop_trailing_dot run) ma mi pa /\
    ma <> 1%N /\ ma <> 2%N /\
    ValueError ("Invalid torch version: 0.4.1" : str) =
    ValueError ("Invalid torch version: " ++ drop_trailing_dot run).
Proof.
  apply (X7_resolver_errors ("0.4.1.post2" : str)). by vm_compute.
Defined.

(** * Further properties of the manifest rewriter *)

(** X8.  Where the version of [adjust] comes from: a missing version and an
    empty one are the same and stand for the version of the installed
    torch; without an installed torch the import fails, and an installed
    torch with an empty version is refused.  With a version at hand,
    [adjust] fails exactly when the resolver fails on it, with the same
    error, whatever the lines. *)
Theorem X8_adjust_version_source :
  (forall (installed : option str) (requires : list str),
     adjust installed requires None = adjust installed requires (Some [])) /\
  (forall (installed : option str) (v : str) (requires : list str),
     v <> [] ->
     adjust (Some v) requires None = adjust installed requires (Some v)) /\
  (forall requires : list str,
     adjust None requires None = Raise ModuleNotFoundError) /\
  (forall requires : list str,
     adjust (Some []) requires None =
     Raise (ValueError ("invalid torch: " : str))) /\
  (forall (installed : option str) (v : str) (requires : list str) (e : exn),
     v <> [] ->
     adjust installed requires (Some v) = Raise e <-> find_latest v = Raise e).
Proof.
  split; [done |]. split; [by intros installed [| c v] |].
  split; [done |]. split; [done |].
  intros installed [| c v] requires e Hne; [done |].
  unfold adjust. simpl. destruct (find_latest (c :: v)); simpl.
  - split; intros [=].
  - split; by intros [= ->].
Qed.

Lemma X8_adjust_version_source_witness :
  adjust (Some ("2.1.0" : str)) ["torch" : str] None =
  adjust None ["torch" : str] (Some ("2.1.0" : str)).
Proof.
  destruct X8_adjust_version_source as (_ & H & _). by apply H.
Defined.

Lemma requirement_part_strip line :
  requirement_part (strip line) = requirement_part line.
Proof. unfold requirement_part. by rewrite strip_strip. Qed.

Lemma adjusted_line_shape options line :
  (requirement_part line = [] /\ adjusted_line options line = strip line) \/
  (good_text (requirement_part line) /\
   (((hash ∉ strip line) /\ requirement_part line = strip line /\
     adjusted_line options line = substitute options (requirement_part line)) \/
    exists a b,
      strip line = a ++ hash :: b /\ (hash ∉ a) /\
      requirement_part line = strip a /\
      adjusted_line options line =
      substitute options (strip a) ++ "  #" ++ b)).
Proof.
  rewrite <- (adjusted_line_strip options line),
    <- (requirement_part_strip line).
  pose proof (strip_tight line) as Ht. set (l := strip line) in *.
  destruct (split1_cases hash l) as [Hh | (a & b & E & Hh)].
  - assert (Er : requirement_part l = l).
    { unfold requirement_part. rewrite (strip_id l), split1_no_sep by done.
      simpl. by apply strip_id. }
    rewrite Er. destruct (decide (l = [])) as [-> | Hne]; [by left |].
    right. split; [done |]. left. by rewrite adjusted_line_plain.
  - assert (Er : requirement_part l = strip a).
    { unfold requirement_part.
      by rewrite (strip_id l), E, split1_app_sep by done. }
    rewrite Er. destruct (decide (strip a = [])) as [Hs | Hs].
    + left. split; [done |]. rewrite E in Ht |- *.
      apply strip_nil in Hs as ->.
      * simpl. by rewrite adjusted_line_comment.
      * intros c Hc. apply (proj1 Ht). by destruct a.
    + right. split.
      * split; [done |]. split; [apply strip_tight |].
        by apply Forall_not_elem_of, strip_Forall, Forall_not_elem_of.
      * right. exists a, b. rewrite E in Ht |- *.
        by rewrite adjusted_line_both.
Qed.

(** X9.  Blank lines and lines that hold a comment only come out stripped,
    whatever the alignment: no rule is applied to them. *)
Theorem X9_comment_lines_pass :
  forall (env : option str) (v : str) (options : list (str * str))
         (requires : list str),
    find_latest v = OK options ->
    Forall (fun line => strip line = [] \/ exists b, strip line = hash :: b)
           requires ->
    adjust env requires (Some v) = OK (strip <$> requires).
Proof.
  intros env v options requires Hv H.
  rewrite (adjust_map env requires v options Hv). f_equal.
  apply Forall_fmap_ext. eapply Forall_impl; [done |]. simpl.
  intros line Hline.
  destruct (adjusted_line_shape options line)
    as [[_ ->] | [(Hne & _ & _) _]]; [done |].
  exfalso. apply Hne. unfold requirement_part.
  by destruct Hline as [-> | [b ->]].
Qed.

Lemma X9_comment_lines_pass_witness :
  adjust None
    ["   # torch is pinned below  " : str; "" : str; "   " : str;
     "#torchvision" : str]
    (Some ("2.1.0" : str)) =
  OK (strip <$>
        ["   # torch is pinned below  " : str; "" : str; "   " : str;
         "#torchvision" : str]).
Proof.
  eapply (X9_comment_lines_pass None ("2.1.0" : str)); [by vm_compute |].
  repeat (apply Forall_cons; split;
          [first [left; reflexivity | right; eexists; reflexivity] |]).
  apply Forall_nil_2.
Defined.

(** X10.  An inline comment is kept as it is: the rules are applied to the
    text before the first hash only, and the comment follows the rewritten
    requirement after exactly two spaces. *)
Theorem X10_comment_kept :
  forall (env : option str) (v : str) (options : list (str * str))
         (line a b : str),
    find_latest v = OK options ->
    strip line = a ++ hash :: b -> hash ∉ a -> strip a <> [] ->
    adjust env [line] (Some v) =
    OK [substitute options (strip a) ++ "  #" ++ b].
Proof.
  intros env v options line a b Hv E Ha Hne.
  rewrite (adjust_map env [line] v options Hv). simpl. do 2 f_equal.
  rewrite <- adjusted_line_strip, E. apply adjusted_line_both; [| done..].
  rewrite <- E. apply strip_tight.
Qed.

Lemma X10_comment_kept_witness :
  exists options,
    find_latest "2.1.0" = OK options /\
    adjust None ["torch>=1.9 # needs torch>=1.9, torchvision" : str]
      (Some ("2.1.0" : str)) =
    OK [substitute options (strip ("torch>=1.9 " : str)) ++
        "  #" ++ (" needs torch>=1.9, torchvision" : str)].
Proof.
  eexists. split; [by vm_compute |].
  apply (X10_comment_kept None ("2.1.0" : str) _
           ("torch>=1.9 # needs torch>=1.9, torchvision" : str)
           ("torch>=1.9 " : str) (" needs torch>=1.9, torchvision" : str)).
  - by vm_compute.
  - by vm_compute.
  - apply Forall_not_elem_of. by repeat constructor.
  - by vm_compute.
Defined.

Lemma substitute_nil options : substitute options [] = [].
Proof.
  induction options as [| item options IH]; [done |].
  by rewrite substitute_cons.
Qed.

Lemma requirement_part_good r : good_text r -> requirement_part r = r.
Proof.
  intros (Hne & Ht & Hh). unfold requirement_part.
  rewrite (strip_id r), split1_no_sep by done. simpl. by apply strip_id.
Qed.

Lemma requirement_part_comment r b :
  good_text r -> ends_tight (hash :: b) ->
  tight (r ++ "  #" ++ b) /\ requirement_part (r ++ "  #" ++ b) = r.
Proof.
  intros (Hne & Ht & Hh) Hb.
  assert (Hto : tight (r ++ "  #" ++ b)).
  { split.
    - intros c Hc. apply (proj1 Ht). by destruct r.
    - intros c Hc. apply Hb. rewrite last_app in Hc. simpl in Hc.
      rewrite !last_cons in Hc. rewrite last_cons. by destruct (last b). }
  split; [done |]. unfold requirement_part. rewrite (strip_id _ Hto).
  change (r ++ "  #" ++ b) with (r ++ ("  " : str) ++ hash :: b).
  rewrite app_assoc, split1_app_sep.
  - simpl. apply strip_spaces; [done | done | by repeat constructor].
  - apply not_elem_of_app. split; [done |].
    apply Forall_not_elem_of. by repeat constructor.
Qed.

Lemma adjusted_line_normal options line :
  aligned options ->
  strip (adjusted_line options line) = adjusted_line options line /\
  requirement_part (adjusted_line options line) =
    substitute options (requirement_part line) /\
  (requirement_part line <> [] ->
   requirement_part (adjusted_line options line) <> []).
Proof.
  intros Ha.
  destruct (adjusted_line_shape options line)
    as [[Er ->] | [Hgood [(Hh & Er & ->) | (a & b & E & Hh & Er & ->)]]].
  - rewrite strip_strip, requirement_part_strip, Er, substitute_nil. done.
  - pose proof (substitute_good _ _ Ha Hgood) as Hr.
    rewrite (requirement_part_good _ Hr).
    split; [apply strip_id, Hr |]. split; [done |]. intros _. apply Hr.
  - rewrite Er in Hgood |- *.
    pose proof (substitute_good _ _ Ha Hgood) as Hr.
    assert (Hb : ends_tight (hash :: b)).
    { intros c Hc. apply (proj2 (strip_tight line)). rewrite E, last_app.
      by rewrite Hc. }
    destruct (requirement_part_comment _ b Hr Hb) as [Ht ->].
    split; [by apply strip_id |]. split; [done |]. intros _. apply Hr.
Qed.

(** X11.  Every line that [adjust] returns is stripped, and its requirement
    part is the requirement part of the line given, rewritten by the rules:
    a requirement is never dropped, and the line holds at most the one
    comment it had. *)
Theorem X11_output_lines :
  forall (env : option str) (v : str) (options : list (str * str))
         (requires : list str),
    find_latest v = OK options ->
    exists out,
      adjust env requires (Some v) = OK out /\
      Forall (fun o => strip o = o) out /\
      Forall2
        (fun line o =>
           requirement_part o = substitute options (requirement_part line) /\
           (requirement_part line <> [] -> requirement_part o <> []))
        requires out.
Proof.
  intros env v options requires Hv.
  pose proof (find_latest_aligned _ _ Hv) as Ha.
  exists (adjusted_line options <$> requires).
  split; [by apply adjust_map |]. split.
  - apply Forall_fmap, Forall_forall. intros line _.
    by apply adjusted_line_normal.
  - apply Forall2_fmap_r, Forall2_same_length_lookup_2; [done |].
    intros i line line' H1 H2. simplify_eq.
    by apply adjusted_line_normal.
Qed.

Lemma X11_output_lines_witness :
  exists out,
    adjust None [" torchaudio >=0.9 #audio " : str; "  # c" : str]
      (Some ("1.9.0" : str)) = OK out /\
    Forall (fun o => strip o = o) out /\
    Forall2
      (fun line o =>
         requirement_part o =
         substitute
           [("torch" : str, "1.9.0" : str); ("torchvision" : str, "0.10.0" : str);
            ("torchtext" : str, "0.10.0" : str);
            ("torchaudio" : str, "0.9.0" : str)]
           (requirement_part line) /\
         (requirement_part line <> [] -> requirement_part o <> []))
      [" torchaudio >=0.9 #audio " : str; "  # c" : str] out.
Proof.
  apply (X11_output_lines None ("1.9.0" : str)). by vm_compute.
Defined.

(** ** A name at the start of a requirement *)

Lemma re_sub_line lib repl s :
  Forall (fun c => is_word c = true) lib -> lib <> [] -> newline ∉ s ->
  re_sub lib repl s = line_sub lib repl false s.
Proof.
  intros Hw Hne Hs. by rewrite re_sub_lines, split_no_sep.
Qed.

Lemma match_at_longer lib k pw s :
  Forall (fun c => is_word c = true) k ->
  match_at lib pw s = true -> match_at (lib ++ k) pw s = true -> k = [].
Proof.
  unfold match_at.
  intros Hk [_ [_ Hn]%name_then_lookahead_spec]%andb_true_iff
    [_ [[t ->] _]%name_then_lookahead_spec]%andb_true_iff.
  destruct k as [| c k]; [done |]. destruct Hn. exists c.
  apply Forall_cons in Hk as [Hc _].
  rewrite <- !app_assoc, lookup_app_r, Nat.sub_diag by done.
  split; [done |]. unfold is_name_char. by rewrite Hc, orb_true_r.
Qed.

(** Two names that match at the same place are one name. *)
Lemma match_at_exclusive lib lib' pw s :
  Forall (fun c => is_word c = true) lib ->
  Forall (fun c => is_word c = true) lib' ->
  match_at lib pw s = true -> match_at lib' pw s = true -> lib = lib'.
Proof.
  intros Hw Hw' Hm Hm'.
  assert (Hp : lib `prefix_of` s).
  { by apply andb_true_iff in Hm as [_ [? _]%name_then_lookahead_spec]. }
  assert (Hp' : lib' `prefix_of` s).
  { by apply andb_true_iff in Hm' as [_ [? _]%name_then_lookahead_spec]. }
  destruct (prefix_weak_total _ _ _ Hp Hp') as [[k ->] | [k ->]].
  - apply Forall_app in Hw' as [_ Hk].
    rewrite (match_at_longer lib k pw s) by done. by rewrite app_nil_r.
  - apply Forall_app in Hw as [_ Hk].
    rewrite (match_at_longer lib' k pw s) by done. by rewrite app_nil_r.
Qed.

(** The rule of another name keeps a match at the start of a line. *)
Lemma rule_keeps_start lib lib' v' s :
  plain_name lib -> plain_name lib' -> version_text v' -> lib' <> lib ->
  (newline ∉ s) /\ match_at lib false s = true ->
  (newline ∉ rule (lib', v') s) /\
  match_at lib false (rule (lib', v') s) = true.
Proof.
  intros (Hne & Hw & _) Hl' Hv' Hdiff [Hs Hm].
  pose proof (pin_no_newline _ _ Hl' Hv') as Hpin.
  destruct Hl' as (Hne' & Hw' & _).
  unfold rule. simpl. rewrite replacement_pin by apply Hv'.
  rewrite re_sub_line, line_sub_find by done.
  destruct (find_match lib' false s) as [[pre m] |] eqn:E; [| done].
  apply find_match_Some in E as (-> & Hm' & Hlast & _); [| done..].
  destruct pre as [| d pre].
  - destruct Hdiff. symmetry. by apply (match_at_exclusive lib lib' false m).
  - apply not_elem_of_app in Hs as [Hpre _]. split.
    + by apply not_elem_of_app.
    + simpl in *. rewrite match_at_cut in Hm |- * by done. done.
Qed.

(** The rule of a name turns a line that starts with a match into the
    pin. *)
Lemma rule_at_start lib v s :
  plain_name lib -> version_text v ->
  newline ∉ s -> match_at lib false s = true ->
  rule (lib, v) s = lib ++ "==" ++ v.
Proof.
  intros (Hne & Hw & _) Hv Hs Hm. unfold rule. simpl.
  rewrite replacement_pin by apply Hv. rewrite re_sub_line by done.
  destruct s as [| c s]; [by apply match_at_inv in Hm as (_ & ? & ? & ? & _) |].
  simpl. by rewrite Hm.
Qed.

Lemma substitute_at_start options lib version s :
  aligned options -> (lib, version) ∈ options ->
  newline ∉ s -> match_at lib false s = true ->
  substitute options s = lib ++ "==" ++ version.
Proof.
  intros Ha Hin Hs Hm.
  destruct (aligned_elem _ _ Ha Hin) as (? & ? & [= <- <-] & Hv & Hl & Hu).
  pose proof (companion_plain _ Hl) as Hplain.
  destruct (list_elem_of_split_l _ _ Hin) as (before & after & Ho & Hfirst).
  assert (Hbefore : forall item, item ∈ before -> item ∈ options).
  { intros item H. rewrite Ho. apply elem_of_app. by left. }
  rewrite Ho, substitute_app, substitute_cons.
  assert (Hstart : (newline ∉ substitute before s) /\
                   match_at lib false (substitute before s) = true).
  { clear Ho. revert s Hs Hm.
    induction before as [| item before IH]; intros s Hs Hm; [done |].
    rewrite substitute_cons.
    apply not_elem_of_cons in Hfirst as [Hitem Hfirst].
    destruct (aligned_elem _ item Ha) as (lib' & v' & -> & Hv' & Hl' & _);
      [apply Hbefore; by left |].
    destruct (rule_keeps_start lib lib' v' s) as [Hs' Hm'];
      auto using companion_plain.
    - intros ->. destruct Hitem. f_equal. symmetry. apply Hu, Hbefore. by left.
    - apply IH; [done | | done..]. intros item' H. apply Hbefore. by right. }
  destruct Hstart as [Hs' Hm'].
  rewrite (rule_at_start lib version) by done.
  apply substitute_unchanged. intros item Hitem.
  destruct (aligned_elem _ item Ha) as (lib' & v' & -> & Hv' & Hl' & _).
  { rewrite Ho. apply elem_of_app. right. by right. }
  pose proof (companion_plain _ Hl') as Hplain'.
  pose proof (pin_no_newline _ _ Hplain Hv) as Hpin.
  destruct (companion_cross lib lib' Hl Hl') as [<- | Hcross].
  - assert (v' = version) as ->.
    { apply Hu. rewrite Ho. apply elem_of_app. right. by right. }
    apply rule_at_start; try done.
    destruct Hplain as (? & ? & _). by apply match_at_pin.
  - pose proof (pin_cross lib lib' version Hplain' Hv Hcross) as Hnone.
    unfold rule. cbn [fst snd]. destruct Hplain' as (? & ? & ?).
    rewrite re_sub_line, line_sub_find by done. by rewrite Hnone.
Qed.

Lemma word_ends_tight lib :
  Forall (fun c => is_word c = true) lib -> ends_tight lib.
Proof.
  intros Hw c Hc. apply word_not_space.
  rewrite Forall_forall in Hw. apply Hw. by apply last_Some_elem_of.
Qed.

Lemma strip_name_line lib rest :
  plain_name lib -> strip (lib ++ rest) = lib ++ rstrip rest.
Proof.
  intros (Hne & Hw & _). unfold strip. rewrite lstrip_id.
  - destruct (rstrip_prefix rest) as (ws & E & Hws).
    rewrite E at 1. rewrite app_assoc. apply rstrip_spaces; [| done].
    apply ends_tight_app; [by apply word_ends_tight | apply rstrip_ends].
  - intros c Hc. apply word_not_space. destruct lib as [| a l]; [done |].
    apply Forall_cons in Hw as [Ha _]. by injection Hc as <-.
Qed.

Lemma rstrip_elem_of c s : c ∈ rstrip s -> c ∈ s.
Proof.
  intros H. destruct (rstrip_prefix s) as (ws & E & _). rewrite E.
  apply elem_of_app. by left.
Qed.

Lemma rstrip_head s c : head (rstrip s) = Some c -> head s = Some c.
Proof.
  intros H. destruct (rstrip_prefix s) as (ws & E & _). rewrite E.
  by destruct (rstrip s).
Qed.

Lemma match_at_name_line lib rest :
  plain_name lib ->
  (forall c, head rest = Some c -> is_name_char c = false) ->
  match_at lib false (lib ++ rest) = true.
Proof.
  intros (Hne & Hw & _) Hrest. unfold match_at. apply andb_true_iff. split.
  - destruct lib as [| a l]; [done |].
    apply Forall_cons in Hw as [Ha _]. simpl. by rewrite Ha.
  - apply name_then_lookahead_spec. split; [by eexists |].
    intros (c & Hc & Hname).
    rewrite lookup_app_r, Nat.sub_diag in Hc by done.
    rewrite <- head_lookup in Hc. apply Hrest in Hc. congruence.
Qed.

(** X12.  A line that starts with a companion name as a whole token, and
    holds neither a comment nor a newline but at its end, becomes the pin of
    that name and nothing else: what follows the name on the line, other
    companion names included, is dropped. *)
Theorem X12_pin_at_line_start :
  forall (env : option str) (v : str) (options : list (str * str))
         (lib version rest : str),
    find_latest v = OK options ->
    (lib, version) ∈ options ->
    (forall c, head rest = Some c -> is_name_char c = false) ->
    hash ∉ rest ->
    newline ∉ rstrip rest ->
    adjust env [lib ++ rest] (Some v) = OK [lib ++ "==" ++ version].
Proof.
  intros env v options lib version rest Hv Hin Hhead Hhash Hline.
  pose proof (find_latest_aligned _ _ Hv) as Ha.
  destruct (aligned_elem _ _ Ha Hin) as (? & ? & [= <- <-] & _ & Hl & _).
  pose proof (companion_plain _ Hl) as Hplain.
  rewrite (adjust_map env _ v options) by done. simpl. do 2 f_equal.
  rewrite <- adjusted_line_strip, strip_name_line by done.
  assert (Hgood : good_text (lib ++ rstrip rest)).
  { split; [| split].
    - destruct Hplain as (Hne & _). by destruct lib.
    - rewrite <- strip_name_line by done. apply strip_tight.
    - apply not_elem_of_app. split.
      + destruct Hplain as (_ & Hw & _). rewrite Forall_forall in Hw.
        intros H. by apply Hw in H.
      + intros H. by apply Hhash, rstrip_elem_of. }
  rewrite adjusted_line_plain by done.
  apply substitute_at_start; [done | done | |].
  - apply not_elem_of_app. split; [| done].
    destruct Hplain as (_ & Hw & _). rewrite Forall_forall in Hw.
    intros H. by apply Hw in H.
  - apply match_at_name_line; [done |]. intros c Hc.
    by apply Hhead, rstrip_head.
Qed.

Lemma X12_pin_at_line_start_witness :
  adjust None
    [("torchvision" : str) ++
     (">=0.9, <0.18; needs torch>=1.9 and torchaudio" : str) ++ [newline]]
    (Some ("2.1.0" : str)) =
  OK [("torchvision" : str) ++ "==" ++ ("0.16.0" : str)].
Proof.
  apply (X12_pin_at_line_start None ("2.1.0" : str)
           [("torch" : str, "2.1.0" : str);
            ("torchvision" : str, "0.16.0" : str);
            ("torchtext" : str, "0.16.0" : str);
            ("torchaudio" : str, "2.1.0" : str)]).
  - by vm_compute.
  - apply elem_of_cons. right. apply elem_of_cons. by left.
  - intros c [= <-]. reflexivity.
  - apply Forall_not_elem_of. by repeat constructor.
  - apply Forall_not_elem_of. vm_compute. by repeat constructor.
Defined.

(** ** The characters of a rewritten line *)

Lemma substitute_Forall (P : ascii -> Prop) options s :
  aligned options ->
  (forall c, is_word c = true -> P c) ->
  (forall c, is_numdot c = true -> P c) ->
  P "="%char ->
  Forall P s -> Forall P (substitute options s).
Proof.
  intros Ha Hw Hn He.
  assert (H : forall item, item ∈ options ->
    exists lib v, item = (lib, v) /\ plain_name lib /\ version_text v).
  { intros item Hin.
    destruct (aligned_elem _ _ Ha Hin) as (lib & v & -> & Hv & Hl & _).
    exists lib, v. split; [done |]. split; [by apply companion_plain | done]. }
  clear Ha. revert s. induction options as [| item options IH]; intros s Hs;
    [done |].
  rewrite substitute_cons. apply IH.
  - intros item' Hin. apply H. by right.
  - destruct (H item) as (lib & v & -> & (_ & Hl & _) & [Hne Hv]); [by left |].
    unfold rule. cbn [fst snd]. rewrite replacement_pin by done.
    apply re_sub_from_Forall; [| done]. apply pin_Forall; [| done |].
    + eapply Forall_impl; [done |]. apply Hw.
    + eapply Forall_impl; [done |]. apply Hn.
Qed.

Lemma strip_elem_of c s : c ∈ strip s -> c ∈ s.
Proof.
  intros H. destruct (strip_infix s) as (w1 & w2 & E & _). rewrite E.
  apply elem_of_app. right. apply elem_of_app. by left.
Qed.

Lemma adjusted_line_Forall (P : ascii -> Prop) options line :
  aligned options ->
  (forall c, is_word c = true -> P c) ->
  (forall c, is_numdot c = true -> P c) ->
  P "="%char -> P " "%char ->
  Forall P (strip line) -> Forall P (adjusted_line options line).
Proof.
  intros Ha Hw Hn He Hsp Hline.
  destruct (adjusted_line_shape options line)
    as [[_ ->] | [_ [(_ & -> & ->) | (a & b & E & _ & _ & ->)]]]; [done | |].
  - by apply substitute_Forall.
  - rewrite E in Hline. apply Forall_app in Hline as [Hpre Hcomment].
    apply Forall_app. split.
    + by apply substitute_Forall, strip_Forall.
    + simpl. do 2 (constructor; [done |]). exact Hcomment.
Qed.

(** X13.  The rewriter brings in no character of its own but those of a
    pin and the space: every character of a returned line is a character
    of the stripped line given, a word character, a digit, a dot, an equal
    sign or a space. *)
Theorem X13_characters_of_output :
  forall (env : option str) (v : str) (options : list (str * str))
         (requires : list str),
    find_latest v = OK options ->
    exists out,
      adjust env requires (Some v) = OK out /\
      Forall2
        (fun line o =>
           forall c, c ∈ o ->
             c ∈ strip line \/ is_word c = true \/ is_numdot c = true \/
             c = "="%char \/ c = " "%char)
        requires out.
Proof.
  intros env v options requires Hv.
  pose proof (find_latest_aligned _ _ Hv) as Ha.
  exists (adjusted_line options <$> requires).
  split; [by apply adjust_map |].
  apply Forall2_fmap_r, Forall2_same_length_lookup_2; [done |].
  intros i line line' H1 H2. simplify_eq. simpl.
  apply (proj1 (Forall_forall _ (adjusted_line options line))).
  apply adjusted_line_Forall; auto.
  apply Forall_forall. auto.
Qed.

Lemma X13_characters_of_output_witness :
  exists out,
    adjust None [" torch>1.0 # pin" : str] (Some ("1.13.1" : str)) = OK out /\
    Forall2
      (fun line o =>
         forall c, c ∈ o ->
           c ∈ strip line \/ is_word c = true \/ is_numdot c = true \/
           c = "="%char \/ c = " "%char)
      [" torch>1.0 # pin" : str] out.
Proof.
  eapply (X13_characters_of_output None ("1.13.1" : str)). reflexivity.
Defined.

(** * Properties of the file of requirements *)

(** ** Reading and writing in text mode *)

Lemma write_text_cons linesep c s :
  write_text linesep (c :: s) =
  (if decide (c = newline) then linesep else [c]) ++ write_text linesep s.
Proof. done. Qed.

Lemma write_text_app linesep a b :
  write_text linesep (a ++ b) = write_text linesep a ++ write_text linesep b.
Proof. unfold write_text. apply bind_app. Qed.

Lemma write_text_line linesep s :
  newline ∉ s -> write_text linesep s = s.
Proof.
  induction s as [| c s IH]; [done |].
  intros [Hc Hs]%not_elem_of_cons.
  rewrite write_text_cons, decide_False, IH by done. done.
Qed.

Lemma write_text_posix s : write_text [newline] s = s.
Proof.
  induction s as [| c s IH]; [done |]. rewrite write_text_cons, IH.
  by case_decide; subst.
Qed.

Lemma universal_newlines_app r x :
  cr ∉ r -> universal_newlines (r ++ x) = r ++ universal_newlines x.
Proof.
  induction r as [| c r IH]; [done |]. intros [Hc Hr]%not_elem_of_cons.
  simpl. by rewrite decide_False, IH.
Qed.

Lemma universal_newlines_id s : cr ∉ s -> universal_newlines s = s.
Proof.
  intros H. rewrite <- (app_nil_r s) at 1.
  rewrite universal_newlines_app by done. simpl. apply app_nil_r.
Qed.

Lemma universal_newlines_elem_of c s :
  c ∈ universal_newlines s -> c <> cr /\ (c = newline \/ c ∈ s).
Proof.
  remember (length s) as n eqn:Hn. revert s Hn.
  induction n as [n IH] using lt_wf_ind. intros [| d s] Hn; simpl.
  - by intros ?%elem_of_nil.
  - case_decide as Hd.
    + destruct s as [| d' s].
      * intros ->%list_elem_of_singleton. split; [done | by left].
      * assert (Hnext : forall t, length t < n ->
                  c ∈ newline :: universal_newlines t ->
                  (forall x, x ∈ t -> x ∈ d :: d' :: s) ->
                  c <> cr /\ (c = newline \/ c ∈ d :: d' :: s)).
        { intros t Ht [-> | Hc]%elem_of_cons Hsub; [split; [done | by left] |].
          destruct (IH (length t) Ht t eq_refl Hc) as [? [-> | ?]];
            split; auto. }
        simpl in Hn. case_decide.
        -- intros Hc. apply (Hnext s); [lia | done |].
           intros x Hx. by do 2 right.
        -- intros Hc. apply (Hnext (d' :: s)); [simpl; lia | done |].
           intros x Hx. by right.
    + intros [-> | Hc]%elem_of_cons; [split; [done | right; by left] |].
      simpl in Hn.
      destruct (IH (length s) ltac:(lia) s eq_refl Hc) as [? [-> | ?]];
        split; auto. right. by right.
Qed.

Lemma readlines_line b rest :
  newline ∉ b ->
  readlines (b ++ newline :: rest) = (b ++ [newline]) :: readlines rest.
Proof.
  induction b as [| c b IH].
  - intros _. change (readlines ([] ++ newline :: rest))
      with (if decide (newline = newline) then [newline] :: readlines rest
            else match readlines rest with
                 | l :: ls => (newline :: l) :: ls
                 | [] => [[newline]]
                 end).
    by rewrite decide_True.
  - intros [Hc Hb]%not_elem_of_cons. simpl. by rewrite decide_False, IH.
Qed.

Lemma concat_readlines s : concat (readlines s) = s.
Proof.
  induction s as [| c s IH]; simpl; [done |]. case_decide.
  - simpl. by rewrite IH.
  - destruct (readlines s) as [| l ls]; simpl in *; by rewrite <- IH.
Qed.

(** A line read holds no newline but at its end. *)
Lemma readlines_shape s :
  Forall (fun l => exists b, (newline ∉ b) /\ (l = b \/ l = b ++ [newline]))
         (readlines s).
Proof.
  induction s as [| c s IH]; simpl; [done |]. case_decide as Hc.
  - constructor; [| done]. exists []. split; [by intros ?%elem_of_nil |].
    right. by rewrite Hc.
  - destruct (readlines s) as [| l ls].
    + repeat constructor. exists [c]. split; [| by left].
      intros H%list_elem_of_singleton. by destruct Hc.
    + apply Forall_cons in IH as [(b & Hb & Hl) Hls]. constructor; [| done].
      exists (c :: b). split; [by apply not_elem_of_cons |].
      destruct Hl as [-> | ->]; auto.
Qed.

Lemma drop_while_app (f : ascii -> bool) a b :
  drop_while f (a ++ b) =
  match drop_while f a with
  | [] => drop_while f b
  | x => x ++ b
  end.
Proof.
  induction a as [| c a IH]; simpl; [by destruct (drop_while f b) |].
  by destruct (f c).
Qed.

Lemma rstrip_app_spaces x ws :
  Forall (fun c => is_space c = true) ws -> rstrip (x ++ ws) = rstrip x.
Proof.
  intros H. unfold rstrip.
  by rewrite reverse_app, drop_while_app_all by by apply Forall_reverse.
Qed.

Lemma strip_app_spaces s ws :
  Forall (fun c => is_space c = true) ws -> strip (s ++ ws) = strip s.
Proof.
  intros H. unfold strip, lstrip. rewrite drop_while_app.
  destruct (drop_while is_space s) as [| c x].
  - by rewrite drop_while_all.
  - by apply rstrip_app_spaces.
Qed.

Lemma elem_of_concat (c : ascii) (l : str) (ls : list str) :
  c ∈ l -> l ∈ ls -> c ∈ concat ls.
Proof.
  intros Hc. induction 1 as [| l' ls Hl IH]; simpl; apply elem_of_app; auto.
Qed.

(** The lines of a text read in text mode: stripped, they hold neither a
    newline nor a carriage return. *)
Lemma read_lines_strip text :
  Forall (fun l => Forall (fun c => c <> newline /\ c <> cr) (strip l))
         (readlines (universal_newlines text)).
Proof.
  pose proof (readlines_shape (universal_newlines text)) as Hshape.
  pose proof (concat_readlines (universal_newlines text)) as Hcat.
  apply Forall_forall. intros l Hl.
  rewrite Forall_forall in Hshape.
  destruct (Hshape l Hl) as (b & Hb & Hlb).
  apply Forall_forall. intros c Hc. split.
  - intros ->. apply Hb. destruct Hlb as [-> | ->].
    + by apply strip_elem_of.
    + rewrite strip_app_spaces in Hc by by repeat constructor.
      by apply strip_elem_of.
  - apply (universal_newlines_elem_of c text). rewrite <- Hcat.
    apply (elem_of_concat c l); [by apply strip_elem_of | done].
Qed.

(** ** The run of [main] *)

(** A result of [adjust] is the map of one alignment, whatever the lines;
    a failure of [adjust] is one for all lines. *)
Lemma adjust_OK_inv env requires tv out :
  adjust env requires tv = OK out ->
  exists options,
    aligned options /\
    forall requires',
      adjust env requires' tv = OK (adjusted_line options <$> requires').
Proof.
  unfold adjust.
  destruct tv as [[| c v] |], env as [[| d w] |]; simpl; try done.
  all: match goal with
       | |- context [find_latest ?x] =>
           destruct (find_latest x) as [options | e] eqn:E; simpl; [| done]
       end.
  all: intros _; exists options; split; [by eapply find_latest_aligned |].
  all: intros requires'; by rewrite adjust_loop_map.
Qed.


Lemma adjusted_lines_clean options text :
  aligned options ->
  Forall (fun o => Forall (fun c => c <> newline /\ c <> cr) o)
         (adjusted_line options <$> readlines (universal_newlines text)).
Proof.
  intros Ha. apply Forall_fmap.
  eapply Forall_impl; [apply read_lines_strip |]. simpl. intros l Hl.
  apply adjusted_line_Forall; try done.
  - intros c Hc. split; by intros ->.
  - intros c Hc. split; by intros ->.
Qed.

Lemma clean_line o :
  Forall (fun c => c <> newline /\ c <> cr) o -> (newline ∉ o) /\ (cr ∉ o).
Proof.
  intros H. split; apply Forall_not_elem_of; eapply Forall_impl; try done.
  - by intros c [? ?].
  - by intros c [? ?].
Qed.

(** Lines written with a newline each are read back as they are. *)
Lemma posix_read_back out :
  Forall (fun o => Forall (fun c => c <> newline /\ c <> cr) o) out ->
  readlines (universal_newlines (concat ((fun r => r ++ [newline]) <$> out))) =
  (fun r => r ++ [newline]) <$> out.
Proof.
  assert (H : forall out,
    Forall (fun o => Forall (fun c => c <> newline /\ c <> cr) o) out ->
    universal_newlines (concat ((fun r => r ++ [newline]) <$> out)) =
    concat ((fun r => r ++ [newline]) <$> out)).
  { intros out'. induction 1 as [| o out'' [_ Ho]%clean_line _ IH]; [done |].
    rewrite fmap_cons. simpl concat. rewrite <- app_assoc.
    rewrite universal_newlines_app by done. simpl. by rewrite IH. }
  intros Hout. rewrite H by done.
  induction Hout as [| o out' [Ho _]%clean_line _ IH]; [done |].
  rewrite fmap_cons. simpl concat. rewrite <- app_assoc. simpl.
  by rewrite readlines_line, IH.
Qed.

(** Lines written with a carriage return and a newline each, where every
    newline written becomes these two, are read back with an empty line
    after each. *)
Lemma crlf_read_back out :
  Forall (fun o => Forall (fun c => c <> newline /\ c <> cr) o) out ->
  readlines (universal_newlines
    (write_text [cr; newline] (concat ((fun r => r ++ [cr; newline]) <$> out)))) =
  out ≫= (fun r => [r ++ [newline]; [newline]]).
Proof.
  induction 1 as [| o out' [Hn Hc]%clean_line _ IH]; [done |].
  rewrite fmap_cons. simpl concat.
  rewrite !write_text_app, write_text_line by done.
  rewrite <- app_assoc, universal_newlines_app by done.
  change (write_text [cr; newline] [cr; newline]) with [cr; cr; newline].
  change (universal_newlines ([cr; cr; newline] ++ ?x))
    with (newline :: newline :: universal_newlines x).
  rewrite readlines_line by done.
  change (readlines (newline :: ?x)) with ([newline] :: readlines x).
  by rewrite IH.
Qed.

Lemma adjusted_line_newline options o :
  adjusted_line options (o ++ [newline]) = adjusted_line options o.
Proof.
  rewrite <- adjusted_line_strip, strip_app_spaces by by repeat constructor.
  apply adjusted_line_strip.
Qed.

Example doctest_offset_print :
  _offset_print [newline]
    [("torch==2.1.0" : str); ("torchvision==0.16.0" : str);
     ("torchtext==0.16.0" : str); ("torchaudio==2.1.0" : str)]
    [tab; "|"%char; tab] =
  [tab; "|"%char; tab] ++ "torch==2.1.0" ++ [newline] ++
  [tab; "|"%char; tab] ++ "torchvision==0.16.0" ++ [newline] ++
  [tab; "|"%char; tab] ++ "torchtext==0.16.0" ++ [newline] ++
  [tab; "|"%char; tab] ++ "torchaudio==2.1.0".
Proof. reflexivity. Qed.



(** X15.  Where [os.linesep] is the newline, a run of [main] that returns
    leaves in the file the lines of [adjust], each ended by one newline, so
    that the file reads back as these lines; a second run on the files left
    by the first returns as well and changes nothing. *)
Theorem X15_main_posix_idempotent :
  forall (env : option str) (path : str) (tv : option str)
         (files files' : gmap str str),
    main [newline] env path tv files = (files', None) ->
    (exists text text' out,
       files !! path = Some text /\
       files' !! path = Some text' /\
       adjust env (readlines (universal_newlines text)) tv = OK out /\
       readlines (universal_newlines text') =
       (fun r => r ++ [newline]) <$> out) /\
    main [newline] env path tv files' = (files', None).
Proof.
  intros env path tv files files'. unfold main.
  destruct (files !! path) as [text |] eqn:Etext; [| done].
  destruct (adjust env _ tv) as [out | e] eqn:Eout; [| done].
  intros [= <-].
  destruct (adjust_OK_inv _ _ _ _ Eout) as (options & Ha & Hall).
  assert (out = adjusted_line options <$> readlines (universal_newlines text))
    as Hout.
  { rewrite Hall in Eout. by injection Eout. }
  pose proof (adjusted_lines_clean options text Ha) as Hclean.
  rewrite <- Hout in Hclean.
  rewrite write_text_posix, lookup_insert_eq.
  split.
  - exists text, (concat ((fun r => r ++ [newline]) <$> out)), out.
    by rewrite posix_read_back.
  - rewrite posix_read_back, Hall by done.
    assert (adjusted_line options <$> ((fun r => r ++ [newline]) <$> out) = out)
      as ->.
    { rewrite Hout, <- !list_fmap_compose.
      apply list_fmap_ext. intros i l _. simpl.
      by rewrite adjusted_line_newline, adjusted_line_idem. }
    by rewrite write_text_posix, insert_insert_eq.
Qed.

Lemma X15_main_posix_idempotent_witness :
  let files : gmap str str :=
    {[ ("requirements.txt" : str) :=
         ("torchvision>=0.10" : str) ++ [cr; newline] ++
         ("# docs" : str) ++ [cr] ++ ("torch >1.9 # base" : str) ]} in
  let files' : gmap str str :=
    {[ ("requirements.txt" : str) :=
         ("torchvision==0.16.0" : str) ++ [newline] ++
         ("# docs" : str) ++ [newline] ++
         ("torch==2.1.0  # base" : str) ++ [newline] ]} in
  (exists text text' out,
     files !! ("requirements.txt" : str) = Some text /\
     files' !! ("requirements.txt" : str) = Some text' /\
     adjust None (readlines (universal_newlines text))
       (Some ("2.1.0" : str)) = OK out /\
     readlines (universal_newlines text') =
     (fun r => r ++ [newline]) <$> out) /\
  main [newline] None "requirements.txt" (Some ("2.1.0" : str)) files' =
  (files', None).
Proof.
  intros files files'.
  apply (X15_main_posix_idempotent None "requirements.txt"
           (Some ("2.1.0" : str)) files files').
  unfold main, files, files'. rewrite lookup_singleton_eq.
  set (a := adjust _ _ _). vm_compute in a. subst a. cbv iota beta.
  rewrite insert_singleton_eq. reflexivity.
Defined.

(** X16.  Where [os.linesep] is a carriage return and a newline, the
    newline of the separator that [main] appends is itself written as the
    separator: every line of the file ends in two carriage returns and a
    newline, and the file reads back as the lines of [adjust] with an empty
    line after each, twice as many lines as [adjust] returned. *)
Theorem X16_main_crlf_blank_lines :
  forall (env : option str) (path : str) (tv : option str)
         (files files' : gmap str str),
    main [cr; newline] env path tv files = (files', None) ->
    exists text out,
      files !! path = Some text /\
      adjust env (readlines (universal_newlines text)) tv = OK out /\
      files' !! path = Some (concat ((fun r => r ++ [cr; cr; newline]) <$> out)) /\
      readlines (universal_newlines
                   (concat ((fun r => r ++ [cr; cr; newline]) <$> out))) =
      out ≫= (fun r => [r ++ [newline]; [newline]]).
Proof.
  intros env path tv files files'. unfold main.
  destruct (files !! path) as [text |] eqn:Etext; [| done].
  destruct (adjust env _ tv) as [out | e] eqn:Eout; [| done].
  intros [= <-].
  destruct (adjust_OK_inv _ _ _ _ Eout) as (options & Ha & Hall).
  assert (out = adjusted_line options <$> readlines (universal_newlines text))
    as Hout.
  { rewrite Hall in Eout. by injection Eout. }
  pose proof (adjusted_lines_clean options text Ha) as Hclean.
  rewrite <- Hout in Hclean.
  assert (Hwritten :
    write_text [cr; newline] (concat ((fun r => r ++ [cr; newline]) <$> out)) =
    concat ((fun r => r ++ [cr; cr; newline]) <$> out)).
  { clear Hout Eout. induction Hclean as [| o out' [Hn _]%clean_line _ IH];
      [done |].
    rewrite !fmap_cons. simpl concat.
    rewrite !write_text_app, write_text_line, IH by done. done. }
  exists text, out. split; [done |]. split; [done |].
  rewrite lookup_insert_eq, Hwritten. split; [done |].
  rewrite <- Hwritten. by apply crlf_read_back.
Qed.

Lemma X16_main_crlf_blank_lines_witness :
  let files : gmap str str :=
    {[ ("requirements.txt" : str) :=
         ("torch>=1.9" : str) ++ [newline] ++ ("numpy" : str) ]} in
  let files' : gmap str str :=
    {[ ("requirements.txt" : str) :=
         ("torch==2.1.0" : str) ++ [cr; cr; newline] ++
         ("numpy" : str) ++ [cr; cr; newline] ]} in
  exists text out,
    files !! ("requirements.txt" : str) = Some text /\
    adjust None (readlines (universal_newlines text))
      (Some ("2.1.0" : str)) = OK out /\
    files' !! ("requirements.txt" : str) =
    Some (concat ((fun r => r ++ [cr; cr; newline]) <$> out)) /\
    readlines (universal_newlines
                 (concat ((fun r => r ++ [cr; cr; newline]) <$> out))) =
    out ≫= (fun r => [r ++ [newline]; [newline]]).
Proof.
  intros files files'.
  apply (X16_main_crlf_blank_lines None "requirements.txt"
           (Some ("2.1.0" : str)) files files').
  unfold main, files, files'. rewrite lookup_singleton_eq.
  set (a := adjust _ _ _). vm_compute in a. subst a. cbv iota beta.
  rewrite insert_singleton_eq. reflexivity.
Defined.



(** The sample file of the test, rewritten in place. *)
Example test_adjust_torch_versions_file :
  main [newline] None "requirements.txt" (Some ("1.10.0" : str))
    {[ ("requirements.txt" : str) :=
         concat ((fun l : string => l ++ [newline]) <$>
           [""; "# This is sample requirements file";
            "#  with multi line comments"; "";
            "torchvision >=0.13.0, <0.16.0  # sample # comment";
            "gym[classic_control] >=0.17.0, <0.27.0";
            "ipython[all] <8.15.0  # strict";
            "torchmetrics >=0.10.0, <1.3.0";
            "lightning-utilities >=0.8.0, <0.10.0"; ""]) ]} =
  ({[ ("requirements.txt" : str) :=
        concat ((fun l : string => l ++ [newline]) <$>
          [""; "# This is sample requirements file";
           "#  with multi line comments"; "";
           "torchvision==0.11.1  # sample # comment";
           "gym[classic_control] >=0.17.0, <0.27.0";
           "ipython[all] <8.15.0  # strict";
           "torchmetrics >=0.10.0, <1.3.0";
           "lightning-utilities >=0.8.0, <0.10.0"; ""]) ]},
   None).
Proof.
  unfold main. rewrite lookup_singleton_eq.
  set (a := adjust _ _ _). vm_compute in a. subst a. cbv iota beta.
  rewrite insert_singleton_eq. reflexivity.
Qed.
